(** * bolt03: the Snake and Flappy Bird engines

    A shallow embedding of the two game engines of the repository
    ([src/games/Snake/Snake.tsx] and the Flappy Bird component) together
    with the properties of their per-tick state updates.

    Conventions of the embedding.
    - Grid coordinates, scores and timestamps are integer valued JavaScript
      numbers and are modelled in [Z]; the JavaScript remainder [%] is
      [Z.rem].  The continuous quantities of Flappy Bird are modelled in [Q],
      the exact-arithmetic reading of the doubles of the source.
    - [Math.random()] reads a tape [nat -> Q] at a cursor.  The rejection
      loop of [getRandomPosition] takes fuel; [None] stands for a loop that
      has not finished within the fuel.
    - A React handler reads the [state] of the render that created it and
      queues functional updaters [prev => ...]; a handler is modelled as a
      function from that [state] to the list of queued updaters, which are
      then applied, in order, to the current state. *)

From Stdlib Require Import ZArith QArith Qround Qabs Qminmax List Bool String Lia Lqa Arith PeanoNat.
Import ListNotations.

(* ================================================================== *)
(** * The random source *)

Module Random.

Definition Tape := nat -> Q.

(** A computation that reads the tape from a cursor and may not finish. *)
Definition Rand (A : Type) : Type := Tape -> nat -> option (A * nat).

Definition ret {A} (a : A) : Rand A := fun _ c => Some (a, c).

Definition bind {A B} (m : Rand A) (k : A -> Rand B) : Rand B :=
  fun tape c =>
    match m tape c with
    | Some (a, c') => k a tape c'
    | None => None
    end.

Definition Math_random : Rand Q := fun tape c => Some (tape c, S c).

Definition Math_floor (q : Q) : Z := Qfloor q.

End Random.

Import Random.

Declare Scope rand_scope.
Delimit Scope rand_scope with rand.
Notation "x <- m ;; k" := (bind m (fun x => k))
  (at level 61, m at next level, right associativity) : rand_scope.
Notation "' p <- m ;; k" := (bind m (fun p => k))
  (at level 61, p pattern, m at next level, right associativity) : rand_scope.

(* ================================================================== *)
(** * Snake *)

Module Snake.

Local Open Scope Z_scope.

(** ** types.ts *)

Inductive Direction := UP | DOWN | LEFT | RIGHT.
Inductive Difficulty := easy | normal | hard | extreme.
Inductive FoodType := apple | banana | meat | berry.
Inductive SnakeColor := green | blue | purple | orange | pink.

Record Point := mkPoint { x : Z; y : Z }.

(** [Food extends Point]: the cell of a food is kept as a [Point]. *)
Record Food := mkFood { cell : Point; type : FoodType; points : Z }.

Definition Wall := Point.

Record GameState := mkState {
  snake : list Point;
  foods : list Food;
  walls : list Wall;
  direction : Direction;
  nextDirection : Direction;
  score : Z;
  highScore : Z;
  isGameOver : bool;
  isPaused : bool;
  difficulty : Difficulty;
  gridSize : Z;
  snakeColor : SnakeColor
}.

Definition FOOD_POINTS (t : FoodType) : Z :=
  match t with
  | apple => 1
  | banana => 2
  | meat => 3
  | berry => 1
  end.

(** ** Snake.tsx: constants *)

Definition GRID_SIZE : Z := 20.
Definition INITIAL_SNAKE : list Point := [mkPoint 10 10].
Definition WALL_SPAWN_SCORE : Z := 10.
Definition MULTI_FOOD_SCORE : Z := 5.

Definition Direction_eqb (a b : Direction) : bool :=
  match a, b with
  | UP, UP | DOWN, DOWN | LEFT, LEFT | RIGHT, RIGHT => true
  | _, _ => false
  end.

Definition Difficulty_eqb (a b : Difficulty) : bool :=
  match a, b with
  | easy, easy | normal, normal | hard, hard | extreme, extreme => true
  | _, _ => false
  end.

(** [a.x === b.x && a.y === b.y] *)
Definition same_cell (a b : Point) : bool :=
  (x a =? x b) && (y a =? y b).

(** The guard of the [do ... while] of [getRandomPosition]. *)
Definition occupied (snake : list Point) (foods : list Food)
           (walls : list Wall) (position : Point) : bool :=
  existsb (fun segment => same_cell segment position) snake
  || existsb (fun food => same_cell (cell food) position) foods
  || existsb (fun wall => same_cell wall position) walls.

Local Open Scope rand_scope.

(** One draw of the loop body: two reads of the tape. *)
Definition randomCell : Rand Point :=
  rx <- Math_random ;;
  ry <- Math_random ;;
  ret (mkPoint (Math_floor (rx * inject_Z GRID_SIZE))
               (Math_floor (ry * inject_Z GRID_SIZE))).

Fixpoint getRandomPosition (fuel : nat) (snake : list Point)
         (foods : list Food) (walls : list Wall) : Rand Point :=
  match fuel with
  | O => fun _ _ => None
  | S fuel' =>
      position <- randomCell ;;
      if occupied snake foods walls position
      then getRandomPosition fuel' snake foods walls
      else ret position
  end.

(** The [for] loop of [getRandomFoodType] over the weights. *)
Fixpoint pickType (random sum : Q) (table : list (FoodType * Q)) : FoodType :=
  match table with
  | [] => apple
  | (t, w) :: rest =>
      let sum' := (sum + w)%Q in
      if Qle_bool sum' random then pickType random sum' rest else t
  end.

Definition getRandomFoodType : Rand FoodType :=
  random <- Math_random ;;
  ret (pickType random 0
         [(apple, 4 # 10); (banana, 3 # 10); (meat, 2 # 10); (berry, 1 # 10)]%Q).

Definition createFood (fuel : nat) (snake : list Point) (foods : list Food)
           (walls : list Wall) : Rand Food :=
  position <- getRandomPosition fuel snake foods walls ;;
  type <- getRandomFoodType ;;
  ret (mkFood position type (FOOD_POINTS type)).

Definition createWall (fuel : nat) (snake : list Point) (foods : list Food)
           (walls : list Wall) : Rand Wall :=
  getRandomPosition fuel snake foods walls.

(** [createBorderWalls]: four pushes per index, corners pushed twice. *)
Definition createBorderWalls : list Wall :=
  flat_map (fun i => [mkPoint i 0; mkPoint i (GRID_SIZE - 1);
                      mkPoint 0 i; mkPoint (GRID_SIZE - 1) i])
           (map Z.of_nat (seq 0 (Z.to_nat GRID_SIZE))).

(** ** Record updates ([{ ...prev, field: v }]) *)

Definition Updater := GameState -> GameState.

Definition set_isGameOver (v : bool) : Updater := fun prev =>
  mkState (snake prev) (foods prev) (walls prev) (direction prev)
          (nextDirection prev) (score prev) (highScore prev) v
          (isPaused prev) (difficulty prev) (gridSize prev) (snakeColor prev).

Definition set_isPaused (v : bool) : Updater := fun prev =>
  mkState (snake prev) (foods prev) (walls prev) (direction prev)
          (nextDirection prev) (score prev) (highScore prev) (isGameOver prev)
          v (difficulty prev) (gridSize prev) (snakeColor prev).

Definition set_nextDirection (v : Direction) : Updater := fun prev =>
  mkState (snake prev) (foods prev) (walls prev) (direction prev)
          v (score prev) (highScore prev) (isGameOver prev)
          (isPaused prev) (difficulty prev) (gridSize prev) (snakeColor prev).

Definition set_snakeColor (v : SnakeColor) : Updater := fun prev =>
  mkState (snake prev) (foods prev) (walls prev) (direction prev)
          (nextDirection prev) (score prev) (highScore prev) (isGameOver prev)
          (isPaused prev) (difficulty prev) (gridSize prev) v.

(** [{ ...prev, foods, walls, score, highScore: Math.max(newScore, prev.highScore) }] *)
Definition set_eaten (newFoods : list Food) (newWalls : list Wall)
           (newScore : Z) : Updater := fun prev =>
  mkState (snake prev) newFoods newWalls (direction prev)
          (nextDirection prev) newScore (Z.max newScore (highScore prev))
          (isGameOver prev) (isPaused prev) (difficulty prev)
          (gridSize prev) (snakeColor prev).

(** [{ ...prev, snake: newSnake, direction: prev.nextDirection }] *)
Definition set_moved (newSnake : list Point) : Updater := fun prev =>
  mkState newSnake (foods prev) (walls prev) (nextDirection prev)
          (nextDirection prev) (score prev) (highScore prev)
          (isGameOver prev) (isPaused prev) (difficulty prev)
          (gridSize prev) (snakeColor prev).

(** React applies the queued updaters in order. *)
Definition applyUpdates (queue : list Updater) (s : GameState) : GameState :=
  fold_left (fun st u => u st) queue s.

(** ** Array helpers *)

(** [findIndex]; [None] is the [-1] of JavaScript. *)
Fixpoint findIndex {A} (p : A -> bool) (l : list A) : option nat :=
  match l with
  | [] => None
  | a :: l' =>
      if p a then Some O
      else match findIndex p l' with
           | Some i => Some (S i)
           | None => None
           end
  end.

(** [l.filter((_, i) => keep(i))], counting indices from [i]. *)
Fixpoint filterIndexFrom {A} (keep : nat -> bool) (i : nat) (l : list A) : list A :=
  match l with
  | [] => []
  | a :: l' =>
      if keep i then a :: filterIndexFrom keep (S i) l'
      else filterIndexFrom keep (S i) l'
  end.

Definition filterIndex {A} (keep : nat -> bool) (l : list A) : list A :=
  filterIndexFrom keep 0 l.

(** ** moveSnake *)

(** The [switch] on [state.nextDirection]. *)
Definition moveHead (d : Direction) (head : Point) : Point :=
  match d with
  | UP => mkPoint (x head) (Z.rem (y head - 1 + GRID_SIZE) GRID_SIZE)
  | DOWN => mkPoint (x head) (Z.rem (y head + 1) GRID_SIZE)
  | LEFT => mkPoint (Z.rem (x head - 1 + GRID_SIZE) GRID_SIZE) (y head)
  | RIGHT => mkPoint (Z.rem (x head + 1) GRID_SIZE) (y head)
  end.

Definition onBorder (head : Point) : bool :=
  (x head =? 0) || (x head =? GRID_SIZE - 1)
  || (y head =? 0) || (y head =? GRID_SIZE - 1).

(** The two early returns of [moveSnake], for a head already moved. *)
Definition hits (state : GameState) (head : Point) : bool :=
  (Difficulty_eqb (difficulty state) extreme && onBorder head)
  || (existsb (fun segment => same_cell segment head) (snake state)
      || existsb (fun wall => same_cell wall head) (walls state)).

(** [for (let i = newFoods.length; i < foodCount; i++) newFoods.push(createFood(...))],
    as its [n] iterations. *)
Fixpoint pushFoods (fuel n : nat) (newSnake : list Point)
         (newFoods : list Food) (walls : list Wall) : Rand (list Food) :=
  match n with
  | O => ret newFoods
  | S n' =>
      food <- createFood fuel newSnake newFoods walls ;;
      pushFoods fuel n' newSnake (newFoods ++ [food]) walls
  end.

Definition foodCount (newScore : Z) : Z :=
  Z.min 3 (newScore / MULTI_FOOD_SCORE).

Definition replenish (fuel : nat) (newScore : Z) (newSnake : list Point)
           (newFoods : list Food) (walls : list Wall) : Rand (list Food) :=
  if MULTI_FOOD_SCORE <=? newScore
  then pushFoods fuel
         (Z.to_nat (foodCount newScore - Z.of_nat (List.length newFoods)))
         newSnake newFoods walls
  else pushFoods fuel 1 newSnake newFoods walls.

Definition spawnsWall (d : Difficulty) (newScore : Z) : bool :=
  negb (Difficulty_eqb d extreme)
  && (WALL_SPAWN_SCORE <=? newScore)
  && (Z.rem newScore WALL_SPAWN_SCORE =? 0).

Definition spawnWall (fuel : nat) (d : Difficulty) (newScore : Z)
           (newSnake : list Point) (newFoods : list Food)
           (newWalls : list Wall) : Rand (list Wall) :=
  if spawnsWall d newScore
  then wall <- createWall fuel newSnake newFoods newWalls ;;
       ret (newWalls ++ [wall])
  else ret newWalls.

(** [moveSnake] reads [state] and queues its updaters.  An empty [snake]
    has no [newSnake[0]]: the coordinates of [head] are then [NaN], which
    compare unequal to everything, so nothing is hit or eaten and the
    [unshift] is undone by the [pop]. *)
Definition moveSnake (fuel : nat) (state : GameState) : Rand (list Updater) :=
  match snake state with
  | [] => ret [set_moved []]
  | head0 :: _ =>
      let head := moveHead (nextDirection state) head0 in
      if hits state head then ret [set_isGameOver true]
      else
        let newSnake := head :: snake state in
        match findIndex (fun food => same_cell (cell food) head) (foods state) with
        | Some foodIndex =>
            match nth_error (foods state) foodIndex with
            | Some eatenFood =>
                let newScore := score state + points eatenFood in
                newFoods <- replenish fuel newScore newSnake
                              (filterIndex (fun i => negb (Nat.eqb i foodIndex))
                                           (foods state))
                              (walls state) ;;
                newWalls <- spawnWall fuel (difficulty state) newScore
                              newSnake newFoods (walls state) ;;
                ret [set_eaten newFoods newWalls newScore; set_moved newSnake]
            | None => ret [set_moved newSnake]
            end
        | None => ret [set_moved (removelast newSnake)]
        end
  end.

(** One tick of the sequential component: the updaters of [moveSnake]
    meet the state that [moveSnake] read. *)
Definition tick (fuel : nat) (state : GameState) : Rand GameState :=
  queue <- moveSnake fuel state ;;
  ret (applyUpdates queue state).

(** ** Input handlers *)

Definition keyDirections (key : string) : option Direction :=
  if String.eqb key "ArrowUp" then Some UP
  else if String.eqb key "ArrowDown" then Some DOWN
  else if String.eqb key "ArrowLeft" then Some LEFT
  else if String.eqb key "ArrowRight" then Some RIGHT
  else if String.eqb key "w" then Some UP
  else if String.eqb key "s" then Some DOWN
  else if String.eqb key "a" then Some LEFT
  else if String.eqb key "d" then Some RIGHT
  else None.

Definition opposites (d : Direction) : Direction :=
  match d with
  | UP => DOWN
  | DOWN => UP
  | LEFT => RIGHT
  | RIGHT => LEFT
  end.

Definition handleDirectionClick (state : GameState) (direction' : Direction)
  : list Updater :=
  if isGameOver state then []
  else if negb (Direction_eqb (opposites direction') (direction state))
       then [set_nextDirection direction']
       else [].

Definition handleKeyDown (state : GameState) (key : string) : list Updater :=
  if isGameOver state then []
  else match keyDirections key with
       | None => []
       | Some newDirection =>
           if negb (Direction_eqb (opposites newDirection) (direction state))
           then [set_nextDirection newDirection]
           else []
       end.

Definition togglePause : list Updater :=
  [fun prev => set_isPaused (negb (isPaused prev)) prev].

(** ** The component: initial state, reset, scheduling *)

Section Component.

(** [initialState.foods] holds one food, drawn once when the module is
    loaded; every reset puts that same food back. *)
Variable initialFood : Food.

Definition initialState : GameState :=
  mkState INITIAL_SNAKE [initialFood] [] RIGHT RIGHT 0 0 false false
          normal GRID_SIZE green.

Definition resetWalls (d : Difficulty) : list Wall :=
  if Difficulty_eqb d extreme then createBorderWalls else [].

(** [{ ...initialState, highScore, difficulty, snakeColor, walls }] *)
Definition restarted (d : Difficulty) (high : Z) (color : SnakeColor)
  : GameState :=
  mkState (snake initialState) (foods initialState) (resetWalls d)
          (direction initialState) (nextDirection initialState)
          (score initialState) high (isGameOver initialState)
          (isPaused initialState) d (gridSize initialState) color.

Definition resetGame (state : GameState) : list Updater :=
  [fun _ => restarted (difficulty state) (highScore state) (snakeColor state)].

Definition handleDifficultyChange (d : Difficulty) : list Updater :=
  [fun prev => restarted d (highScore prev) (snakeColor prev)].

Inductive Event :=
| Tick (fuel : nat)
| KeyDown (key : string)
| DirectionClick (d : Direction)
| TogglePause
| ResetGame
| DifficultyChange (d : Difficulty)
| PickColor (c : SnakeColor).

(** One event of the component.  The game loop is cancelled while the
    game is over or paused, so a tick is then not run. *)
Definition step (e : Event) (state : GameState) : Rand GameState :=
  match e with
  | Tick fuel =>
      if isGameOver state || isPaused state then ret state
      else tick fuel state
  | KeyDown key => ret (applyUpdates (handleKeyDown state key) state)
  | DirectionClick d => ret (applyUpdates (handleDirectionClick state d) state)
  | TogglePause => ret (applyUpdates togglePause state)
  | ResetGame => ret (applyUpdates (resetGame state) state)
  | DifficultyChange d => ret (applyUpdates (handleDifficultyChange d) state)
  | PickColor c => ret (applyUpdates [set_snakeColor c] state)
  end.

Fixpoint run (events : list Event) (state : GameState) : Rand GameState :=
  match events with
  | [] => ret state
  | e :: rest => state' <- step e state ;; run rest state'
  end.

End Component.

(** Loading the module draws the initial food at the start of the tape;
    the component then mounts in [initialState]. *)
Definition mount (fuel : nat) : Rand Food :=
  createFood fuel INITIAL_SNAKE [] [].

(** The states of a session: mount, then any sequence of events. *)
Definition reachable (tape : Tape) (state : GameState) (cursor : nat) : Prop :=
  exists fuel initialFood cursor0 events,
    mount fuel tape 0%nat = Some (initialFood, cursor0) /\
    run initialFood events (initialState initialFood) tape cursor0
      = Some (state, cursor).

(** ** Vocabulary of the properties *)

(** The cell drawn by one pass of the loop body with the cursor at [c]. *)
Definition cellAt (tape : Tape) (c : nat) : Point :=
  mkPoint (Math_floor (tape c * inject_Z GRID_SIZE))
          (Math_floor (tape (S c) * inject_Z GRID_SIZE)).

Definition inGrid (p : Point) : Prop :=
  0 <= x p < GRID_SIZE /\ 0 <= y p < GRID_SIZE.

(** A tape on which the rejection loop, started anywhere, eventually
    draws any given cell of the grid. *)
Definition Fair (tape : Tape) : Prop :=
  forall c p, inGrid p -> exists k, cellAt tape (c + 2 * k) = p.

Definition allCells : list Point :=
  flat_map (fun i => map (fun j => mkPoint (Z.of_nat i) (Z.of_nat j)) (seq 0 20))
           (seq 0 20).

(** The cells taken by a snake, foods and walls. *)
Definition taken (snake : list Point) (foods : list Food) (walls : list Wall)
  : list Point := snake ++ map cell foods ++ walls.

(** Room for the head, three foods and a wall on top of what is there. *)
Definition hasRoom (s : GameState) : Prop :=
  (List.length (taken (snake s) (foods s) (walls s)) + 5 <= 400)%nat.

(** A food priced by [FOOD_POINTS], as [createFood] makes them. *)
Definition wellPriced (f : Food) : Prop := points f = FOOD_POINTS (type f).

Fixpoint distinctCells (l : list Point) : bool :=
  match l with
  | [] => true
  | a :: l' => negb (existsb (fun q => same_cell q a) l') && distinctCells l'
  end.

(** An example tape of period 801: the pairs of its first 800 entries
    list the cells of the grid, and the odd period brings every pair in
    front of the loop whatever the cursor. *)
Definition exampleDigit (i : nat) : nat :=
  let j := (i mod 801)%nat in
  if Nat.even j then ((j / 2 / 20) mod 20)%nat else ((j / 2) mod 20)%nat.

Definition exampleTape : Tape :=
  fun i => (Z.of_nat (exampleDigit i) # 20)%Q.

(** Example states: the snake of [INITIAL_SNAKE] heading right with an
    apple in front of it; the same with a wall in front of it; a snake on
    the right edge; and two states one point short of ten. *)
Definition appleAhead : GameState :=
  mkState INITIAL_SNAKE [mkFood (mkPoint 11 10) apple 1] [] RIGHT RIGHT
          0 0 false false normal GRID_SIZE green.

Definition wallAhead : GameState :=
  mkState INITIAL_SNAKE [mkFood (mkPoint 3 3) apple 1] [mkPoint 11 10]
          RIGHT RIGHT 0 0 false false normal GRID_SIZE green.

Definition onRightEdge : GameState :=
  mkState [mkPoint 19 10] [mkFood (mkPoint 3 3) apple 1] [] RIGHT RIGHT
          0 0 false false normal GRID_SIZE green.

Definition longSnake : list Point :=
  [mkPoint 10 10; mkPoint 9 10; mkPoint 8 10; mkPoint 7 10; mkPoint 6 10].

Definition nineThenApple : GameState :=
  mkState longSnake [mkFood (mkPoint 11 10) apple 1] [] RIGHT RIGHT
          9 9 false false normal GRID_SIZE green.

Definition nineThenBanana : GameState :=
  mkState longSnake [mkFood (mkPoint 11 10) banana 2] [] RIGHT RIGHT
          9 9 false false normal GRID_SIZE green.

Definition positiveMultipleOfTen (n : Z) : Prop :=
  exists k, 0 < k /\ n = WALL_SPAWN_SCORE * k.

(** How many foods the replenishment pushes onto [kept] remaining ones. *)
Definition replenishCount (newScore : Z) (kept : nat) : nat :=
  if MULTI_FOOD_SCORE <=? newScore
  then Z.to_nat (foodCount newScore - Z.of_nat kept)
  else 1%nat.

Definition overHeadingRight : GameState :=
  mkState INITIAL_SNAKE [mkFood (mkPoint 3 3) apple 1] [] RIGHT RIGHT
          0 0 true false normal GRID_SIZE green.

(** What every state of a session satisfies. *)
Definition Inv (s : GameState) : Prop :=
  nextDirection s <> opposites (direction s) /\
  snake s <> [] /\
  Forall wellPriced (foods s) /\
  0 <= score s /\
  Z.of_nat (List.length (foods s)) =
    (if score s <? MULTI_FOOD_SCORE then 1 else foodCount (score s)).

(** A session on the example tape: up to the top row, then left until the
    initial food, which the tape puts at the origin, is one cell away. *)
Definition exampleEvents : list Event :=
  KeyDown "ArrowUp" :: repeat (Tick 1) 10
  ++ KeyDown "ArrowLeft" :: repeat (Tick 1) 9.

Definition beforeFirstApple : GameState :=
  mkState [mkPoint 1 0] [mkFood (mkPoint 0 0) apple 1] [] LEFT LEFT
          0 0 false false normal GRID_SIZE green.

(** The food found under the moved head, if any. *)
Definition newHead (s : GameState) (head0 : Point) : Point :=
  moveHead (nextDirection s) head0.

Definition foodUnder (s : GameState) (head : Point) : option nat :=
  findIndex (fun food => same_cell (cell food) head) (foods s).

(** ** Touch input and the game loop *)

Definition SWIPE_THRESHOLD : Q := 50.

Record TouchPosition := mkTouch { clientX : Q; clientY : Q }.

(** [a > b] on numbers. *)
Definition Qgt_bool (a b : Q) : bool := negb (Qle_bool a b).

(** The direction [handleTouchEnd] hands to [handleDirectionClick], if
    any, from the two deltas of the swipe. *)
Definition swipeOf (deltaX deltaY : Q) : option Direction :=
  let absDeltaX := Qabs deltaX in
  let absDeltaY := Qabs deltaY in
  if Qgt_bool (Qmax absDeltaX absDeltaY) SWIPE_THRESHOLD
  then if Qgt_bool absDeltaX absDeltaY
       then Some (if Qgt_bool deltaX 0 then RIGHT else LEFT)
       else Some (if Qgt_bool deltaY 0 then DOWN else UP)
  else None.

Definition swipeDirection (touchStart touch : TouchPosition) : option Direction :=
  swipeOf (clientX touch - clientX touchStart)%Q
          (clientY touch - clientY touchStart)%Q.

(** [handleTouchEnd]: the queued updaters and the new [touchStart]. *)
Definition handleTouchEnd (state : GameState) (touchStart : option TouchPosition)
           (touch : TouchPosition) : list Updater * option TouchPosition :=
  match touchStart with
  | None => ([], None)
  | Some start =>
      (match swipeDirection start touch with
       | Some d => handleDirectionClick state d
       | None => []
       end, None)
  end.





(** ** Vocabulary of the session properties *)


(** The cells strictly inside the border. *)
Definition interior (p : Point) : Prop :=
  0 < x p < GRID_SIZE - 1 /\ 0 < y p < GRID_SIZE - 1.

(** A session whose module load drew [initialFood]. *)
Definition session (tape : Tape) (initialFood : Food) (state : GameState)
           (cursor : nat) : Prop :=
  exists fuel cursor0 events,
    mount fuel tape 0%nat = Some (initialFood, cursor0) /\
    run initialFood events (initialState initialFood) tape cursor0
      = Some (state, cursor).

(** Nothing overlaps on the board. *)
Definition Board (s : GameState) : Prop :=
  NoDup (snake s) /\
  NoDup (map cell (foods s)) /\
  Forall inGrid (snake s) /\
  (forall f, In f (foods s) -> ~ In (cell f) (snake s)) /\
  (forall w, In w (walls s) -> ~ In w (snake s)) /\
  (difficulty s <> extreme ->
   NoDup (walls s) /\ forall f, In f (foods s) -> ~ In (cell f) (walls s)).

(** Score, high score, length and walls keep step. *)
Definition Tally (s : GameState) : Prop :=
  0 <= score s <= highScore s /\
  Z.of_nat (List.length (snake s)) - 1 <= score s /\
  score s <= 3 * (Z.of_nat (List.length (snake s)) - 1) /\
  (difficulty s <> extreme ->
   Z.of_nat (List.length (walls s)) <= score s / WALL_SPAWN_SCORE).

(** Extreme mode: the border is walled and the snake stays inside it. *)
Definition Fenced (s : GameState) : Prop :=
  difficulty s = extreme ->
  walls s = createBorderWalls /\ Forall interior (snake s).

(** The example session switched to extreme mode. *)
Definition extremeStart : GameState :=
  restarted (mkFood (mkPoint 0 0) apple 1) extreme 0 green.


End Snake.

(* ================================================================== *)
(** * Flappy Bird *)

Module Flappy.

Local Open Scope Q_scope.

(** ** Types and constants *)

Inductive Difficulty := easy | normal | hard.

Record Bird := mkBird { y : Q; velocity : Q; rotation : Q }.

Record Pipe := mkPipe { x : Q; topHeight : Q; passed : bool }.

Record GameState := mkState {
  bird : Bird;
  pipes : list Pipe;
  score : Z;
  highScore : Z;
  isPlaying : bool;
  isGameOver : bool;
  difficulty : Difficulty
}.

Definition CANVAS_WIDTH : Q := 360.
Definition CANVAS_HEIGHT : Q := 640.
Definition BIRD_WIDTH : Q := 34.
Definition BIRD_HEIGHT : Q := 24.
Definition PIPE_WIDTH : Q := 52.
Definition PIPE_GAP : Q := 160.
Definition GRAVITY : Q := 4 # 10.
Definition FLAP_STRENGTH : Q := -7.
Definition PIPE_SPEED : Q := 2.

Record Settings := mkSettings { pipeGap : Q; pipeInterval : Z; gravity : Q }.

Definition DIFFICULTY_SETTINGS (d : Difficulty) : Settings :=
  match d with
  | easy => mkSettings (PIPE_GAP + 40) 180 (GRAVITY * (8 # 10))
  | normal => mkSettings PIPE_GAP 150 GRAVITY
  | hard => mkSettings (PIPE_GAP - 20) 120 (GRAVITY * (12 # 10))
  end.

(** The double [Math.PI], an exact rational. *)
Definition Math_PI : Q := 884279719003555 # 281474976710656.

Definition Qlt_bool (a b : Q) : bool := negb (Qle_bool b a).

Definition initialBird : Bird := mkBird (CANVAS_HEIGHT / 2) 0 0.

(** [createPipe], given the value drawn by its [Math.random()]. *)
Definition createPipe (random : Q) : Pipe :=
  mkPipe CANVAS_WIDTH (random * (CANVAS_HEIGHT - PIPE_GAP - 100) + 50) false.

Definition initialState : GameState :=
  mkState initialBird [] 0 0 false false normal.

(** The component: its state and the [lastPipeRef] ref. *)
Record World := mkWorld { state : GameState; lastPipeRef : Z }.

(** ** update *)

Record Box := mkBox { left : Q; right : Q; top : Q; bottom : Q }.

Definition birdBoxOf (b : Bird) : Box :=
  mkBox (CANVAS_WIDTH / 4 - BIRD_WIDTH / 2) (CANVAS_WIDTH / 4 + BIRD_WIDTH / 2)
        (y b - BIRD_HEIGHT / 2) (y b + BIRD_HEIGHT / 2).

Definition hitsPipe (settings : Settings) (birdBox : Box) (pipe : Pipe) : bool :=
  let pipeBox := mkBox (x pipe) (x pipe + PIPE_WIDTH) 0 (topHeight pipe) in
  let bottomPipeBox :=
    mkBox (x pipe) (x pipe + PIPE_WIDTH)
          (topHeight pipe + pipeGap settings) CANVAS_HEIGHT in
  (Qlt_bool (left pipeBox) (right birdBox) && Qlt_bool (left birdBox) (right pipeBox))
  && (Qlt_bool (top birdBox) (bottom pipeBox)
      || Qlt_bool (top bottomPipeBox) (bottom birdBox)).

(** The [for (const pipe of newState.pipes)] loop: the pipes with their
    [passed] flags as the loop leaves them, the score, and whether the
    loop returned on a collision. *)
Fixpoint scanPipes (settings : Settings) (birdBox : Box) (pipes : list Pipe)
         (score : Z) : list Pipe * Z * bool :=
  match pipes with
  | [] => ([], score, false)
  | pipe :: rest =>
      if hitsPipe settings birdBox pipe then (pipe :: rest, score, true)
      else
        let scores := negb (passed pipe)
                      && Qlt_bool (x pipe + PIPE_WIDTH) (CANVAS_WIDTH / 4) in
        let pipe' := if scores then mkPipe (x pipe) (topHeight pipe) true else pipe in
        let score' := if scores then (score + 1)%Z else score in
        let '(rest', score'', hit) := scanPipes settings birdBox rest score' in
        (pipe' :: rest', score'', hit)
  end.

(** The body of the updater queued by [update]; [settings] are those of
    the [state.difficulty] the callback closed over, [now] is
    [Date.now()] and [random] the value [createPipe] would draw. *)
Definition updateWith (settings : Settings) (now : Z) (random : Q)
           (w : World) : World :=
  let prev := state w in
  let newBird :=
    mkBird (y (bird prev) + velocity (bird prev))
           (velocity (bird prev) + gravity settings)
           (Qmin (Math_PI / 2) (Qmax (- Math_PI / 4) (velocity (bird prev) * (1 # 10)))) in
  let moved :=
    filter (fun pipe => Qlt_bool 0 (x pipe + PIPE_WIDTH))
           (map (fun pipe => mkPipe (x pipe - PIPE_SPEED) (topHeight pipe) (passed pipe))
                (pipes prev)) in
  let spawn := (pipeInterval settings <? now - lastPipeRef w)%Z in
  let newPipes := if spawn then moved ++ [createPipe random] else moved in
  let lastPipe' := if spawn then now else lastPipeRef w in
  let birdBox := birdBoxOf newBird in
  if Qlt_bool CANVAS_HEIGHT (bottom birdBox) || Qlt_bool (top birdBox) 0
  then mkWorld (mkState newBird newPipes (score prev)
                        (Z.max (score prev) (highScore prev))
                        (isPlaying prev) true (difficulty prev))
               lastPipe'
  else
    let '(scanned, newScore, hit) := scanPipes settings birdBox newPipes (score prev) in
    if hit
    then mkWorld (mkState newBird scanned newScore
                          (Z.max (score prev) (highScore prev))
                          (isPlaying prev) true (difficulty prev))
                 lastPipe'
    else mkWorld (mkState newBird scanned newScore (highScore prev)
                          (isPlaying prev) (isGameOver prev) (difficulty prev))
                 lastPipe'.

(** [update], as created by the render that saw [state']. *)
Definition update (state' : GameState) (now : Z) (random : Q) (w : World) : World :=
  if negb (isPlaying state') || isGameOver state' then w
  else updateWith (DIFFICULTY_SETTINGS (difficulty state')) now random w.

(** ** Input *)

Definition startGame (now : Z) (w : World) : World :=
  mkWorld (mkState (bird initialState) (pipes initialState) (score initialState)
                   (highScore (state w)) true (isGameOver initialState)
                   (difficulty (state w)))
          now.

(** [{ ...prev, bird: { ...prev.bird, velocity: FLAP_STRENGTH } }] *)
Definition flap (w : World) : World :=
  let prev := state w in
  mkWorld (mkState (mkBird (y (bird prev)) FLAP_STRENGTH (rotation (bird prev)))
                   (pipes prev) (score prev) (highScore prev)
                   (isPlaying prev) (isGameOver prev) (difficulty prev))
          (lastPipeRef w).

(** [handleClick], as created by the render that saw [state']. *)
Definition handleClick (state' : GameState) (now : Z) (w : World) : World :=
  if isGameOver state' then startGame now w
  else if negb (isPlaying state') then flap (startGame now w)
  else flap w.

(** [handleKeyDown] is memoised with an empty dependency list: the
    [handleClick] it calls is the one of the first render, whose [state]
    is [initialState]. *)
Definition handleKeyDown (code : string) (now : Z) (w : World) : World :=
  if String.eqb code "Space" then handleClick initialState now w else w.

Definition setDifficulty (d : Difficulty) (w : World) : World :=
  let prev := state w in
  mkWorld (mkState (bird prev) (pipes prev) (score prev) (highScore prev)
                   (isPlaying prev) (isGameOver prev) d)
          (lastPipeRef w).

(** Events of the sequential component: every handler but [handleKeyDown]
    is the one of the latest render. *)
Inductive Event :=
| Frame (now : Z) (random : Q)
| Click (now : Z)
| KeyDown (code : string) (now : Z)
| Restart (now : Z)
| PickDifficulty (d : Difficulty).

Definition step (e : Event) (w : World) : World :=
  match e with
  | Frame now random => update (state w) now random w
  | Click now => handleClick (state w) now w
  | KeyDown code now => handleKeyDown code now w
  | Restart now => startGame now w
  | PickDifficulty d => setDifficulty d w
  end.

(** ** Example worlds *)

(** The component as mounted, and a game under way: the bird below the
    middle and falling, one pipe on screen, two points scored. *)
Definition mounted : World := mkWorld initialState 0.

Definition midFlight : World :=
  mkWorld (mkState (mkBird 400 3 (3 # 10)) [mkPipe 200 100 false] 2 5
                   true false normal)
          1000.

(** ** Vocabulary of the frame and session properties *)

Fixpoint run (events : list Event) (w : World) : World :=
  match events with
  | [] => w
  | e :: rest => run rest (step e w)
  end.

(** The worlds of a session: the mounted component, then any events. *)
Definition reachable (w : World) : Prop :=
  exists events, run events mounted = w.

Definition isFrame (e : Event) : bool :=
  match e with
  | Frame _ _ => true
  | _ => false
  end.

(** The parts of the updater of [update]: the bird it builds, the pipes
    before the collision loop, the new [lastPipeRef], and the first of its
    two tests. *)
Definition nextBird (settings : Settings) (b : Bird) : Bird :=
  mkBird (y b + velocity b) (velocity b + gravity settings)
         (Qmin (Math_PI / 2) (Qmax (- Math_PI / 4) (velocity b * (1 # 10)))).

Definition movedPipes (pipes : list Pipe) : list Pipe :=
  filter (fun pipe => Qlt_bool 0 (x pipe + PIPE_WIDTH))
         (map (fun pipe => mkPipe (x pipe - PIPE_SPEED) (topHeight pipe) (passed pipe))
              pipes).

Definition spawns (settings : Settings) (now : Z) (w : World) : bool :=
  (pipeInterval settings <? now - lastPipeRef w)%Z.

Definition framePipes (settings : Settings) (now : Z) (random : Q) (w : World)
  : list Pipe :=
  if spawns settings now w
  then movedPipes (pipes (state w)) ++ [createPipe random]
  else movedPipes (pipes (state w)).

Definition outOfBounds (b : Bird) : bool :=
  Qlt_bool CANVAS_HEIGHT (bottom (birdBoxOf b)) || Qlt_bool (top (birdBoxOf b)) 0.

(** The trailing edge of the pipe is left of the middle of the bird. *)
Definition behind (pipe : Pipe) : bool :=
  Qlt_bool (x pipe + PIPE_WIDTH) (CANVAS_WIDTH / 4).

Definition passedCount (pipes : list Pipe) : Z :=
  Z.of_nat (List.length (filter passed pipes)).

(** A world after a click that started a game and one frame. *)
Definition afterFirstFrame : World :=
  run [Click 0; Frame 16 (1 # 2)] mounted.

End Flappy.

(* ================================================================== *)
(** * Properties of the Snake engine *)

Module SnakeSpec.

Import Snake.
Local Open Scope Z_scope.

(** ** Cells and occupancy *)

Lemma same_cell_eq (a b : Point) : same_cell a b = true <-> a = b.
Proof.
  unfold same_cell. rewrite andb_true_iff, !Z.eqb_eq.
  destruct a as [ax ay], b as [bx by']; simpl. split.
  - intros [-> ->]. reflexivity.
  - intros H. inversion H. auto.
Qed.

Lemma same_cell_refl (a : Point) : same_cell a a = true.
Proof. apply same_cell_eq. reflexivity. Qed.

Lemma existsb_cell_false {A} (f : A -> Point) (l : list A) (p : Point) :
  existsb (fun a => same_cell (f a) p) l = false <-> ~ In p (map f l).
Proof.
  induction l as [|a l IH]; simpl.
  - tauto.
  - rewrite orb_false_iff, IH. split.
    + intros [Hne Hl] [Heq | Hin]; [|tauto].
      rewrite <- Heq, same_cell_refl in Hne. discriminate.
    + intros Hn. split; [|tauto].
      destruct (same_cell (f a) p) eqn:E; [|reflexivity].
      apply same_cell_eq in E. tauto.
Qed.

Lemma existsb_cell_true {A} (f : A -> Point) (l : list A) (p : Point) :
  existsb (fun a => same_cell (f a) p) l = true <-> In p (map f l).
Proof.
  induction l as [|a l IH]; simpl.
  - split; [discriminate | tauto].
  - rewrite orb_true_iff, IH, same_cell_eq. tauto.
Qed.

Lemma occupied_false snake foods walls p :
  occupied snake foods walls p = false <-> ~ In p (taken snake foods walls).
Proof.
  unfold occupied, taken. rewrite !orb_false_iff.
  rewrite (existsb_cell_false (fun q => q)), (existsb_cell_false cell),
    (existsb_cell_false (fun q => q)), !map_id, !in_app_iff. tauto.
Qed.

(** ** The rejection loop *)

Lemma getRandomPosition_S fuel snake foods walls tape c :
  getRandomPosition (S fuel) snake foods walls tape c =
  if occupied snake foods walls (cellAt tape c)
  then getRandomPosition fuel snake foods walls tape (S (S c))
  else Some (cellAt tape c, S (S c)).
Proof.
  simpl. unfold bind, randomCell, Math_random, ret, bind. fold (cellAt tape c).
  destruct (occupied snake foods walls (cellAt tape c)); reflexivity.
Qed.

Lemma getRandomPosition_sound fuel snake foods walls tape :
  forall c p c',
    getRandomPosition fuel snake foods walls tape c = Some (p, c') ->
    occupied snake foods walls p = false /\ (c <= c')%nat.
Proof.
  induction fuel as [|fuel IH]; intros c p c' H.
  - discriminate.
  - rewrite getRandomPosition_S in H.
    destruct (occupied snake foods walls (cellAt tape c)) eqn:E.
    + apply IH in H. destruct H. split; [assumption | lia].
    + inversion H; subst. split; [assumption | lia].
Qed.

Lemma getRandomPosition_mono fuel fuel' snake foods walls tape :
  (fuel <= fuel')%nat ->
  forall c r,
    getRandomPosition fuel snake foods walls tape c = Some r ->
    getRandomPosition fuel' snake foods walls tape c = Some r.
Proof.
  revert fuel'. induction fuel as [|fuel IH]; intros fuel' Hle c r H.
  - discriminate.
  - destruct fuel' as [|fuel']; [lia|].
    rewrite getRandomPosition_S in *.
    destruct (occupied snake foods walls (cellAt tape c)).
    + apply IH; [lia | assumption].
    + assumption.
Qed.

(** Enough fuel: the loop stops at the first free draw. *)
Lemma getRandomPosition_total snake foods walls tape :
  forall k c,
    occupied snake foods walls (cellAt tape (c + 2 * k)) = false ->
    exists p c', getRandomPosition (S k) snake foods walls tape c = Some (p, c').
Proof.
  induction k as [|k IH]; intros c Hfree; rewrite getRandomPosition_S.
  - replace (c + 2 * 0)%nat with c in Hfree by lia. rewrite Hfree. eauto.
  - destruct (occupied snake foods walls (cellAt tape c)); [|eauto].
    apply IH. replace (S (S c) + 2 * k)%nat with (c + 2 * S k)%nat by lia.
    assumption.
Qed.

(** ** A free cell exists while the grid is not full *)

Lemma distinctCells_NoDup (l : list Point) : distinctCells l = true -> NoDup l.
Proof.
  induction l as [|a l IH]; simpl; intros H.
  - constructor.
  - apply andb_true_iff in H. destruct H as [Ha Hl].
    constructor; [|auto].
    apply negb_true_iff in Ha.
    apply (existsb_cell_false (fun q => q)) in Ha. rewrite map_id in Ha. exact Ha.
Qed.

Lemma allCells_NoDup : NoDup allCells.
Proof. apply distinctCells_NoDup. vm_compute. reflexivity. Qed.

Lemma allCells_inGrid (p : Point) : In p allCells -> inGrid p.
Proof.
  unfold allCells. rewrite in_flat_map. intros [i [Hi Hp]].
  apply in_map_iff in Hp. destruct Hp as [j [<- Hj]].
  apply in_seq in Hi. apply in_seq in Hj.
  unfold inGrid, GRID_SIZE; simpl. lia.
Qed.

Lemma free_cell_exists snake foods walls :
  (List.length (taken snake foods walls) < 400)%nat ->
  exists p, inGrid p /\ occupied snake foods walls p = false.
Proof.
  intros Hlen.
  destruct (find (fun p => negb (occupied snake foods walls p)) allCells)
    as [p|] eqn:E.
  - apply find_some in E. destruct E as [Hin Hfree].
    exists p. split; [apply allCells_inGrid; assumption|].
    apply negb_true_iff. assumption.
  - exfalso.
    assert (Hincl : incl allCells (taken snake foods walls)).
    { intros p Hin. pose proof (find_none _ _ E p Hin) as Hocc.
      apply negb_false_iff in Hocc.
      destruct (in_dec (fun a b : Point =>
                  ltac:(decide equality; apply Z.eq_dec) : {a = b} + {a <> b})
                  p (taken snake foods walls)) as [Hyes|Hno]; [assumption|].
      apply occupied_false in Hno. congruence. }
    pose proof (NoDup_incl_length allCells_NoDup Hincl) as Hl.
    change (List.length allCells) with 400%nat in Hl. lia.
Qed.

Lemma getRandomPosition_fair tape snake foods walls c :
  Fair tape ->
  (List.length (taken snake foods walls) < 400)%nat ->
  exists fuel p c',
    getRandomPosition fuel snake foods walls tape c = Some (p, c').
Proof.
  intros Hfair Hlen.
  destruct (free_cell_exists snake foods walls Hlen) as [p [Hgrid Hfree]].
  destruct (Hfair c p Hgrid) as [k Hk].
  exists (S k). apply getRandomPosition_total. rewrite Hk. assumption.
Qed.

(** ** The example tape is fair *)

Lemma exampleTape_floor (i : nat) :
  Math_floor (exampleTape i * inject_Z GRID_SIZE) = Z.of_nat (exampleDigit i).
Proof.
  unfold Math_floor, exampleTape, Qfloor, Qmult, inject_Z, GRID_SIZE.
  cbn [Qnum Qden]. change (Z.pos (20 * 1)) with 20.
  apply Z.div_mul. lia.
Qed.

Lemma exampleDigit_even (m n : nat) :
  (m < 400)%nat -> exampleDigit (2 * m + n * 801) = (m / 20)%nat.
Proof.
  intros Hm. unfold exampleDigit.
  rewrite Nat.Div0.mod_add, Nat.mod_small by lia.
  rewrite Nat.even_mul. cbn [Nat.even orb].
  rewrite (Nat.mul_comm 2 m), Nat.div_mul by lia.
  apply Nat.mod_small. apply Nat.Div0.div_lt_upper_bound. lia.
Qed.

Lemma exampleDigit_odd (m n : nat) :
  (m < 400)%nat -> exampleDigit (S (2 * m + n * 801)) = (m mod 20)%nat.
Proof.
  intros Hm. unfold exampleDigit.
  replace (S (2 * m + n * 801)) with (2 * m + 1 + n * 801)%nat by lia.
  rewrite Nat.Div0.mod_add, Nat.mod_small by lia.
  rewrite Nat.even_add, Nat.even_mul. cbn [Nat.even orb Bool.eqb].
  replace ((2 * m + 1) / 2)%nat with m; [reflexivity|].
  apply (Nat.div_unique (2 * m + 1) 2 m 1); lia.
Qed.

Lemma exampleTape_fair : Fair exampleTape.
Proof.
  intros c [px py] [[Hx0 Hx1] [Hy0 Hy1]]. unfold GRID_SIZE in *.
  cbn [x y] in *.
  set (i := Z.to_nat px). set (j := Z.to_nat py).
  assert (Hi : (i < 20)%nat) by (subst i; lia).
  assert (Hj : (j < 20)%nat) by (subst j; lia).
  exists (20 * i + j + 400 * c)%nat.
  replace (c + 2 * (20 * i + j + 400 * c))%nat
    with (2 * (20 * i + j) + c * 801)%nat by lia.
  unfold cellAt. rewrite !exampleTape_floor.
  rewrite exampleDigit_even, exampleDigit_odd by lia.
  replace ((20 * i + j) / 20)%nat with i
    by (apply (Nat.div_unique (20 * i + j) 20 i j); lia).
  replace ((20 * i + j) mod 20)%nat with j
    by (apply (Nat.mod_unique (20 * i + j) 20 i j); lia).
  subst i j. rewrite !Z2Nat.id by lia. reflexivity.
Qed.

(** ** createFood and the replenishment loop *)

Lemma wellPriced_pos (f : Food) : wellPriced f -> 1 <= points f <= 3.
Proof. unfold wellPriced. intros ->. destruct (type f); simpl; lia. Qed.

Lemma createFood_inv fuel snake foods walls tape c f c' :
  createFood fuel snake foods walls tape c = Some (f, c') ->
  occupied snake foods walls (cell f) = false /\ wellPriced f /\ (c <= c')%nat.
Proof.
  unfold createFood, bind, getRandomFoodType, Math_random, ret, bind.
  destruct (getRandomPosition fuel snake foods walls tape c) as [[p c1]|] eqn:E;
    [|discriminate].
  intros H. inversion H; subst; clear H.
  apply getRandomPosition_sound in E. destruct E as [Hfree Hc].
  simpl. split; [assumption|]. split; [reflexivity | lia].
Qed.

Lemma createFood_mono fuel fuel' snake foods walls tape c r :
  (fuel <= fuel')%nat ->
  createFood fuel snake foods walls tape c = Some r ->
  createFood fuel' snake foods walls tape c = Some r.
Proof.
  intros Hle. unfold createFood, bind.
  destruct (getRandomPosition fuel snake foods walls tape c) as [[p c1]|] eqn:E;
    [|discriminate].
  erewrite getRandomPosition_mono by eassumption. auto.
Qed.

Lemma createFood_fair tape snake foods walls c :
  Fair tape ->
  (List.length (taken snake foods walls) < 400)%nat ->
  exists fuel r, createFood fuel snake foods walls tape c = Some r.
Proof.
  intros Hfair Hlen.
  destruct (getRandomPosition_fair tape snake foods walls c Hfair Hlen)
    as [fuel [p [c1 E]]].
  exists fuel. unfold createFood, bind. rewrite E.
  unfold getRandomFoodType, Math_random, ret, bind. eauto.
Qed.

Lemma pushFoods_inv fuel snake walls tape :
  forall n foods c foods' c',
    pushFoods fuel n snake foods walls tape c = Some (foods', c') ->
    exists added,
      foods' = foods ++ added /\ List.length added = n /\
      Forall wellPriced added /\ (c <= c')%nat.
Proof.
  induction n as [|n IH]; intros foods c foods' c' H; simpl in H.
  - inversion H; subst. exists []. rewrite app_nil_r. auto.
  - unfold bind in H.
    destruct (createFood fuel snake foods walls tape c) as [[f c1]|] eqn:E;
      [|discriminate].
    apply createFood_inv in E. destruct E as [_ [Hp Hc]].
    apply IH in H. destruct H as [added [-> [Hlen [Hall Hc']]]].
    exists (f :: added). rewrite <- app_assoc. simpl.
    repeat split; auto. lia.
Qed.

Lemma pushFoods_mono fuel fuel' snake walls tape :
  (fuel <= fuel')%nat ->
  forall n foods c r,
    pushFoods fuel n snake foods walls tape c = Some r ->
    pushFoods fuel' n snake foods walls tape c = Some r.
Proof.
  intros Hle. induction n as [|n IH]; intros foods c r H; simpl in *.
  - assumption.
  - unfold bind in *.
    destruct (createFood fuel snake foods walls tape c) as [[f c1]|] eqn:E;
      [|discriminate].
    erewrite createFood_mono by eassumption. apply IH. assumption.
Qed.

Lemma taken_length snake foods walls :
  List.length (taken snake foods walls) =
  (List.length snake + List.length foods + List.length walls)%nat.
Proof. unfold taken, Wall in *. rewrite !length_app, length_map. lia. Qed.

Lemma pushFoods_fair tape snake walls :
  Fair tape ->
  forall n foods c,
    (List.length (taken snake foods walls) + n <= 400)%nat ->
    exists fuel r, pushFoods fuel n snake foods walls tape c = Some r.
Proof.
  intros Hfair. induction n as [|n IH]; intros foods c Hlen; simpl.
  - exists O. unfold ret. eauto.
  - destruct (createFood_fair tape snake foods walls c Hfair) as [f1 [[f c1] E1]];
      [lia|].
    destruct (IH (foods ++ [f]) c1) as [f2 [r E2]].
    { rewrite taken_length, length_app in *. simpl. lia. }
    exists (Nat.max f1 f2), r. unfold bind.
    erewrite createFood_mono; [|apply (Nat.le_max_l f1 f2)|exact E1].
    eapply pushFoods_mono; [apply (Nat.le_max_r f1 f2)|exact E2].
Qed.

(** ** findIndex and filter by index *)

Lemma findIndex_Some {A} (p : A -> bool) (l : list A) :
  forall i, findIndex p l = Some i ->
            exists a, nth_error l i = Some a /\ p a = true.
Proof.
  induction l as [|a l IH]; simpl; intros i H.
  - discriminate.
  - destruct (p a) eqn:Ea.
    + inversion H; subst. exists a. auto.
    + destruct (findIndex p l) as [j|]; [|discriminate].
      inversion H; subst. simpl. apply IH. reflexivity.
Qed.

Lemma findIndex_first {A} (p : A -> bool) (l : list A) :
  forall i, findIndex p l = Some i ->
            forall j b, (j < i)%nat -> nth_error l j = Some b -> p b = false.
Proof.
  induction l as [|a l IH]; simpl; intros i H j b Hj Hb.
  - discriminate.
  - destruct (p a) eqn:Ea.
    + inversion H; subst. lia.
    + destruct (findIndex p l) as [i'|] eqn:E; [|discriminate].
      inversion H; subst. destruct j as [|j]; simpl in Hb.
      * inversion Hb; subst. assumption.
      * eapply IH; [reflexivity | | eassumption]. lia.
Qed.

Lemma findIndex_None {A} (p : A -> bool) (l : list A) :
  findIndex p l = None -> forall a, In a l -> p a = false.
Proof.
  induction l as [|a l IH]; simpl; intros H b Hb.
  - contradiction.
  - destruct (p a) eqn:Ea; [discriminate|].
    destruct (findIndex p l); [discriminate|].
    destruct Hb as [<-|Hb]; auto.
Qed.

Lemma findIndex_exists {A} (p : A -> bool) (l : list A) (a : A) :
  In a l -> p a = true -> exists i, findIndex p l = Some i.
Proof.
  intros Hin Hp. destruct (findIndex p l) as [i|] eqn:E; [eauto|].
  rewrite (findIndex_None _ _ E a Hin) in Hp. discriminate.
Qed.

Lemma filterIndexFrom_above {A} (m : nat) (l : list A) :
  forall i, (m < i)%nat ->
            filterIndexFrom (fun j => negb (Nat.eqb j m)) i l = l.
Proof.
  induction l as [|a l IH]; simpl; intros i Hi.
  - reflexivity.
  - destruct (Nat.eqb_spec i m); [lia|]. simpl. f_equal. apply IH. lia.
Qed.

Lemma filterIndexFrom_length {A} (m : nat) (l : list A) :
  forall i a, (i <= m)%nat -> nth_error l (m - i) = Some a ->
    S (List.length (filterIndexFrom (fun j => negb (Nat.eqb j m)) i l))
    = List.length l.
Proof.
  induction l as [|b l IH]; intros i a Hi Hn.
  - destruct (m - i)%nat; discriminate.
  - simpl. destruct (Nat.eqb_spec i m) as [->|Hne]; simpl.
    + rewrite filterIndexFrom_above by lia. reflexivity.
    + f_equal. apply (IH (S i) a); [lia|].
      replace (m - i)%nat with (S (m - S i)) in Hn by lia. exact Hn.
Qed.

Lemma filterIndex_length {A} (m : nat) (l : list A) (a : A) :
  nth_error l m = Some a ->
  S (List.length (filterIndex (fun j => negb (Nat.eqb j m)) l)) = List.length l.
Proof.
  intros H. unfold filterIndex. apply (filterIndexFrom_length m l O a).
  - lia.
  - rewrite Nat.sub_0_r. assumption.
Qed.

Lemma filterIndexFrom_In {A} (keep : nat -> bool) (l : list A) :
  forall i a, In a (filterIndexFrom keep i l) -> In a l.
Proof.
  induction l as [|b l IH]; simpl; intros i a H.
  - assumption.
  - destruct (keep i); simpl in H.
    + destruct H as [->|H]; eauto.
    + eauto.
Qed.

(** ** Replenishment and wall spawning *)

Lemma replenishCount_le newScore kept : (replenishCount newScore kept <= 3)%nat.
Proof.
  unfold replenishCount, foodCount.
  destruct (MULTI_FOOD_SCORE <=? newScore); lia.
Qed.

Lemma replenish_inv fuel newScore snake foods walls tape c foods' c' :
  replenish fuel newScore snake foods walls tape c = Some (foods', c') ->
  exists added,
    foods' = foods ++ added /\
    List.length added = replenishCount newScore (List.length foods) /\
    Forall wellPriced added /\ (c <= c')%nat.
Proof.
  unfold replenish, replenishCount.
  destruct (MULTI_FOOD_SCORE <=? newScore); intros H;
    apply pushFoods_inv in H; exact H.
Qed.

Lemma replenish_mono fuel fuel' newScore snake foods walls tape c r :
  (fuel <= fuel')%nat ->
  replenish fuel newScore snake foods walls tape c = Some r ->
  replenish fuel' newScore snake foods walls tape c = Some r.
Proof.
  intros Hle. unfold replenish.
  destruct (MULTI_FOOD_SCORE <=? newScore); apply pushFoods_mono; assumption.
Qed.

Lemma replenish_fair tape newScore snake foods walls c :
  Fair tape ->
  (List.length (taken snake foods walls) + 3 <= 400)%nat ->
  exists fuel r, replenish fuel newScore snake foods walls tape c = Some r.
Proof.
  intros Hfair Hlen.
  pose proof (replenishCount_le newScore (List.length foods)) as Hn.
  unfold replenish. unfold replenishCount in Hn.
  destruct (MULTI_FOOD_SCORE <=? newScore);
    apply pushFoods_fair; try assumption; lia.
Qed.

Lemma spawnWall_inv fuel d newScore snake foods walls tape c walls' c' :
  spawnWall fuel d newScore snake foods walls tape c = Some (walls', c') ->
  if spawnsWall d newScore
  then exists wall, walls' = walls ++ [wall] /\
                    occupied snake foods walls wall = false
  else walls' = walls.
Proof.
  unfold spawnWall. destruct (spawnsWall d newScore).
  - unfold bind, createWall.
    destruct (getRandomPosition fuel snake foods walls tape c) as [[w c1]|] eqn:E;
      [|discriminate].
    intros H. inversion H; subst.
    apply getRandomPosition_sound in E. destruct E. eauto.
  - intros H. inversion H. reflexivity.
Qed.

Lemma spawnWall_mono fuel fuel' d newScore snake foods walls tape c r :
  (fuel <= fuel')%nat ->
  spawnWall fuel d newScore snake foods walls tape c = Some r ->
  spawnWall fuel' d newScore snake foods walls tape c = Some r.
Proof.
  intros Hle. unfold spawnWall. destruct (spawnsWall d newScore); [|auto].
  unfold bind, createWall.
  destruct (getRandomPosition fuel snake foods walls tape c) as [[w c1]|] eqn:E;
    [|discriminate].
  erewrite getRandomPosition_mono by eassumption. auto.
Qed.

Lemma spawnWall_fair tape d newScore snake foods walls c :
  Fair tape ->
  (List.length (taken snake foods walls) < 400)%nat ->
  exists fuel r, spawnWall fuel d newScore snake foods walls tape c = Some r.
Proof.
  intros Hfair Hlen. unfold spawnWall. destruct (spawnsWall d newScore).
  - destruct (getRandomPosition_fair tape snake foods walls c Hfair Hlen)
      as [fuel [w [c1 E]]].
    exists fuel. unfold bind, createWall. rewrite E. unfold ret. eauto.
  - exists O. unfold ret. eauto.
Qed.

(** ** The three outcomes of a tick *)

Lemma tick_hit fuel s tape c h body :
  snake s = h :: body ->
  hits s (newHead s h) = true ->
  tick fuel s tape c = Some (set_isGameOver true s, c).
Proof.
  intros Hs Hh. unfold tick, moveSnake, bind. rewrite Hs.
  unfold newHead in Hh. rewrite Hh. reflexivity.
Qed.

Lemma tick_move fuel s tape c h body :
  snake s = h :: body ->
  hits s (newHead s h) = false ->
  foodUnder s (newHead s h) = None ->
  tick fuel s tape c =
  Some (set_moved (newHead s h :: removelast (snake s)) s, c).
Proof.
  intros Hs Hh Hf. unfold tick, moveSnake, bind. rewrite Hs.
  unfold newHead, foodUnder in *. rewrite Hh, Hf. reflexivity.
Qed.

Lemma tick_eat fuel s tape c h body i f :
  snake s = h :: body ->
  hits s (newHead s h) = false ->
  foodUnder s (newHead s h) = Some i ->
  nth_error (foods s) i = Some f ->
  tick fuel s tape c =
  match replenish fuel (score s + points f) (newHead s h :: snake s)
          (filterIndex (fun j => negb (Nat.eqb j i)) (foods s)) (walls s) tape c
  with
  | Some (newFoods, c1) =>
      match spawnWall fuel (difficulty s) (score s + points f)
              (newHead s h :: snake s) newFoods (walls s) tape c1
      with
      | Some (newWalls, c2) =>
          Some (set_moved (newHead s h :: snake s)
                  (set_eaten newFoods newWalls (score s + points f) s), c2)
      | None => None
      end
  | None => None
  end.
Proof.
  intros Hs Hh Hf Hn. unfold tick, moveSnake, bind. rewrite Hs.
  unfold newHead, foodUnder in *. rewrite Hh, Hf, Hn. rewrite <- Hs.
  destruct (replenish _ _ _ _ _ tape c) as [[newFoods c1]|]; [|reflexivity].
  destruct (spawnWall _ _ _ _ _ _ tape c1) as [[newWalls c2]|]; reflexivity.
Qed.

(** What a tick that eats leaves behind. *)
Lemma tick_eat_inv fuel s tape c h body i f s' c' :
  snake s = h :: body ->
  hits s (newHead s h) = false ->
  foodUnder s (newHead s h) = Some i ->
  nth_error (foods s) i = Some f ->
  tick fuel s tape c = Some (s', c') ->
  let kept := filterIndex (fun j => negb (Nat.eqb j i)) (foods s) in
  let newScore := score s + points f in
  (exists added,
      foods s' = kept ++ added /\
      List.length added = replenishCount newScore (List.length kept) /\
      Forall wellPriced added) /\
  (if spawnsWall (difficulty s) newScore
   then exists wall, walls s' = walls s ++ [wall] /\
                     occupied (snake s') (foods s') (walls s) wall = false
   else walls s' = walls s) /\
  snake s' = newHead s h :: snake s /\
  score s' = newScore /\
  highScore s' = Z.max newScore (highScore s) /\
  direction s' = nextDirection s /\
  nextDirection s' = nextDirection s /\
  isGameOver s' = isGameOver s /\ isPaused s' = isPaused s /\
  difficulty s' = difficulty s /\ gridSize s' = gridSize s /\
  snakeColor s' = snakeColor s.
Proof.
  intros Hs Hh Hf Hn Ht. rewrite (tick_eat fuel s tape c h body i f Hs Hh Hf Hn) in Ht.
  destruct (replenish _ _ _ _ _ tape c) as [[newFoods c1]|] eqn:E1;
    [|discriminate].
  destruct (spawnWall _ _ _ _ _ _ tape c1) as [[newWalls c2]|] eqn:E2;
    [|discriminate].
  inversion Ht; subst s' c'; clear Ht. simpl.
  apply replenish_inv in E1. destruct E1 as [added [-> [Hlen [Hall _]]]].
  apply spawnWall_inv in E2.
  split; [exists added; auto|]. split; [exact E2|].
  repeat split; reflexivity.
Qed.

(** On a fair tape, with room left on the grid, every tick finishes. *)
Lemma tick_total tape s c :
  Fair tape -> hasRoom s -> exists fuel r, tick fuel s tape c = Some r.
Proof.
  intros Hfair Hroom. unfold hasRoom in Hroom. rewrite taken_length in Hroom.
  destruct (snake s) as [|h body] eqn:Hs.
  - exists O. unfold tick, moveSnake, bind. rewrite Hs. unfold ret. eauto.
  - simpl in Hroom. destruct (hits s (newHead s h)) eqn:Hh.
    + exists O. rewrite (tick_hit O s tape c h body Hs Hh). eauto.
    + destruct (foodUnder s (newHead s h)) as [i|] eqn:Hf.
      * destruct (findIndex_Some _ _ _ Hf) as [f [Hn _]].
        pose proof (filterIndex_length _ _ _ Hn) as Hk.
        set (kept := filterIndex (fun j => negb (Nat.eqb j i)) (foods s)) in *.
        set (newSnake := newHead s h :: snake s).
        destruct (replenish_fair tape (score s + points f) newSnake kept (walls s) c Hfair)
          as [f1 [[newFoods c1] E1]].
        { rewrite taken_length. subst newSnake. rewrite Hs. simpl. lia. }
        pose proof (replenish_inv _ _ _ _ _ _ _ _ _ E1) as [added [-> [Hlen _]]].
        pose proof (replenishCount_le (score s + points f) (List.length kept)).
        destruct (spawnWall_fair tape (difficulty s) (score s + points f) newSnake
                    (kept ++ added) (walls s) c1 Hfair) as [f2 [[newWalls c2] E2]].
        { rewrite taken_length, length_app. subst newSnake. rewrite Hs.
          simpl. lia. }
        exists (Nat.max f1 f2). rewrite (tick_eat _ s tape c h body i f Hs Hh Hf Hn).
        fold kept. fold newSnake.
        erewrite replenish_mono; [|apply (Nat.le_max_l f1 f2)|exact E1].
        cbv beta iota.
        erewrite spawnWall_mono; [|apply (Nat.le_max_r f1 f2)|exact E2].
        eauto.
      * exists O. rewrite (tick_move O s tape c h body Hs Hh Hf). eauto.
Qed.

(** ** Collisions *)

Lemma Difficulty_eqb_eq (a b : Difficulty) : Difficulty_eqb a b = true <-> a = b.
Proof. destruct a, b; simpl; split; congruence. Qed.

Lemma hits_true s head :
  hits s head = true <->
  (difficulty s = extreme /\ onBorder head = true)
  \/ In head (snake s) \/ In head (walls s).
Proof.
  unfold hits. rewrite !orb_true_iff, andb_true_iff, Difficulty_eqb_eq.
  rewrite (existsb_cell_true (fun q => q)), (existsb_cell_true (fun q : Wall => q)).
  rewrite !map_id. tauto.
Qed.

Lemma hits_false_calm s head :
  difficulty s <> extreme ->
  ~ In head (snake s) -> ~ In head (walls s) -> hits s head = false.
Proof.
  intros Hd Hs Hw. destruct (hits s head) eqn:E; [|reflexivity].
  apply hits_true in E. tauto.
Qed.

(** C10. A tick that ends in a collision (the border in extreme mode, the
    snake itself, or a wall) leaves the state as it was except for
    [isGameOver], which becomes true: the moved head is not prepended, no
    food is eaten, and the random source is not read. *)
Theorem terminal_tick_changes_only_isGameOver fuel s tape c h body :
  snake s = h :: body ->
  (difficulty s = extreme /\ onBorder (newHead s h) = true)
  \/ In (newHead s h) (snake s) \/ In (newHead s h) (walls s) ->
  exists s',
    tick fuel s tape c = Some (s', c) /\
    isGameOver s' = true /\
    snake s' = snake s /\ foods s' = foods s /\ walls s' = walls s /\
    score s' = score s /\ highScore s' = highScore s /\
    direction s' = direction s /\ nextDirection s' = nextDirection s /\
    isPaused s' = isPaused s /\ difficulty s' = difficulty s /\
    gridSize s' = gridSize s /\ snakeColor s' = snakeColor s.
Proof.
  intros Hs Hcause. apply hits_true in Hcause.
  exists (set_isGameOver true s).
  rewrite (tick_hit fuel s tape c h body Hs Hcause).
  repeat split; reflexivity.
Qed.

Lemma terminal_tick_witness :
  exists s',
    tick 0 wallAhead exampleTape 0%nat = Some (s', 0%nat) /\
    isGameOver s' = true /\ snake s' = INITIAL_SNAKE.
Proof.
  destruct (terminal_tick_changes_only_isGameOver
              0%nat wallAhead exampleTape 0%nat (mkPoint 10 10) [])
    as [s' [Ht [Hover [Hsnake _]]]].
  - reflexivity.
  - right. right. simpl. left. reflexivity.
  - exists s'. repeat split; assumption.
Defined.

(** ** Movement *)

Lemma moveHead_mod d h :
  inGrid h ->
  moveHead d h =
  match d with
  | UP => mkPoint (x h) ((y h - 1) mod GRID_SIZE)
  | DOWN => mkPoint (x h) ((y h + 1) mod GRID_SIZE)
  | LEFT => mkPoint ((x h - 1) mod GRID_SIZE) (y h)
  | RIGHT => mkPoint ((x h + 1) mod GRID_SIZE) (y h)
  end.
Proof.
  intros [Hx Hy]. unfold moveHead, GRID_SIZE in *.
  destruct d; f_equal; rewrite Z.rem_mod_nonneg by lia;
    try reflexivity;
    match goal with
    | |- (?a - 1 + 20) mod 20 = _ =>
        replace (a - 1 + 20) with (a - 1 + 1 * 20) by lia;
        apply Z_mod_plus_full
    end.
Qed.

Lemma moveHead_inGrid d h : inGrid h -> inGrid (moveHead d h).
Proof.
  intros Hg. rewrite (moveHead_mod d h Hg). destruct Hg as [Hx Hy].
  unfold inGrid, GRID_SIZE in *.
  destruct d; simpl; split; try assumption; apply Z.mod_pos_bound; lia.
Qed.

Lemma tick_not_hit_head fuel s tape c h body s' c' :
  snake s = h :: body ->
  hits s (newHead s h) = false ->
  tick fuel s tape c = Some (s', c') ->
  hd_error (snake s') = Some (newHead s h) /\ isGameOver s' = isGameOver s.
Proof.
  intros Hs Hh Ht.
  destruct (foodUnder s (newHead s h)) as [i|] eqn:Hf.
  - destruct (findIndex_Some _ _ _ Hf) as [f [Hn _]].
    pose proof (tick_eat_inv fuel s tape c h body i f s' c' Hs Hh Hf Hn Ht) as H.
    cbv zeta in H. destruct H as [_ [_ [Hsn [_ [_ [_ [_ [Hg _]]]]]]]].
    rewrite Hsn. auto.
  - rewrite (tick_move fuel s tape c h body Hs Hh Hf) in Ht.
    inversion Ht; subst. auto.
Qed.

(** C4. Outside extreme mode, for every head on the grid, the head moved
    by a tick is the old head shifted by one cell in [nextDirection]
    modulo [GRID_SIZE] on the axis of the move; it stays on the grid, and
    leaving by an edge enters by the opposite one.  When the moved head
    meets neither the snake nor a wall, the tick puts it at the front of
    the snake, and on a fair tape with room on the grid the tick
    finishes. *)
Theorem head_wraps_modulo_grid s h body :
  difficulty s <> extreme ->
  snake s = h :: body ->
  inGrid h ->
  let head := newHead s h in
  head = match nextDirection s with
         | UP => mkPoint (x h) ((y h - 1) mod GRID_SIZE)
         | DOWN => mkPoint (x h) ((y h + 1) mod GRID_SIZE)
         | LEFT => mkPoint ((x h - 1) mod GRID_SIZE) (y h)
         | RIGHT => mkPoint ((x h + 1) mod GRID_SIZE) (y h)
         end /\
  inGrid head /\
  (nextDirection s = RIGHT -> x h = GRID_SIZE - 1 -> head = mkPoint 0 (y h)) /\
  (nextDirection s = LEFT -> x h = 0 -> head = mkPoint (GRID_SIZE - 1) (y h)) /\
  (nextDirection s = DOWN -> y h = GRID_SIZE - 1 -> head = mkPoint (x h) 0) /\
  (nextDirection s = UP -> y h = 0 -> head = mkPoint (x h) (GRID_SIZE - 1)) /\
  (~ In head (snake s) -> ~ In head (walls s) ->
   forall tape c,
     (Fair tape -> hasRoom s -> exists fuel r, tick fuel s tape c = Some r) /\
     (forall fuel s' c',
         tick fuel s tape c = Some (s', c') ->
         hd_error (snake s') = Some head /\ isGameOver s' = isGameOver s)).
Proof.
  intros Hd Hs Hg head.
  assert (Hmod := moveHead_mod (nextDirection s) h Hg).
  fold (newHead s h) in Hmod. fold head in Hmod.
  split; [exact Hmod|]. split; [apply moveHead_inGrid; assumption|].
  repeat split.
  - intros Hdir Hx. rewrite Hmod, Hdir, Hx. reflexivity.
  - intros Hdir Hx. rewrite Hmod, Hdir, Hx. reflexivity.
  - intros Hdir Hy. rewrite Hmod, Hdir, Hy. reflexivity.
  - intros Hdir Hy. rewrite Hmod, Hdir, Hy. reflexivity.
  - intros Hfair Hroom. apply tick_total; assumption.
  - eapply tick_not_hit_head; try eassumption.
    apply hits_false_calm; assumption.
  - eapply tick_not_hit_head; try eassumption.
    apply hits_false_calm; assumption.
Qed.

Lemma head_wraps_witness :
  newHead onRightEdge (mkPoint 19 10) = mkPoint 0 10 /\
  exists s' c',
    tick 0 onRightEdge exampleTape 0%nat = Some (s', c') /\
    hd_error (snake s') = Some (mkPoint 0 10).
Proof.
  destruct (head_wraps_modulo_grid onRightEdge (mkPoint 19 10) [])
    as [_ [_ [Hright [_ [_ [_ Htick]]]]]].
  - discriminate.
  - reflexivity.
  - unfold inGrid, GRID_SIZE. simpl. lia.
  - split; [apply Hright; reflexivity|].
    destruct (Htick ltac:(intros [H|[]]; discriminate H) ltac:(intros [])
                exampleTape 0%nat) as [_ Hres].
    destruct (tick 0 onRightEdge exampleTape 0%nat) as [[s' c']|] eqn:E.
    + exists s', c'. split; [reflexivity|].
      destruct (Hres 0%nat s' c' E) as [Hhd _]. exact Hhd.
    + vm_compute in E. discriminate E.
Defined.

(** ** Eating *)

Lemma foodUnder_None s head :
  (forall f, In f (foods s) -> cell f <> head) -> foodUnder s head = None.
Proof.
  intros Hno. destruct (foodUnder s head) as [i|] eqn:E; [|reflexivity].
  destruct (findIndex_Some _ _ _ E) as [f [Hn Hsame]].
  apply same_cell_eq in Hsame. apply nth_error_In in Hn.
  exfalso. exact (Hno f Hn Hsame).
Qed.

Lemma foodUnder_Some s head :
  (exists f, In f (foods s) /\ cell f = head) ->
  exists i f, foodUnder s head = Some i /\ nth_error (foods s) i = Some f /\
              In f (foods s) /\ cell f = head.
Proof.
  intros [f0 [Hin Hc]].
  destruct (findIndex_exists (fun food => same_cell (cell food) head)
              (foods s) f0 Hin) as [i Hi].
  { apply same_cell_eq. assumption. }
  destruct (findIndex_Some _ _ _ Hi) as [f [Hn Hsame]].
  exists i, f. apply same_cell_eq in Hsame.
  repeat split; try assumption. eapply nth_error_In; eassumption.
Qed.

Lemma removelast_cons_length {A} (l : list A) (a : A) :
  List.length (removelast (a :: l)) = List.length l.
Proof.
  assert (Hne : a :: l <> []) by discriminate.
  pose proof (f_equal (@List.length A) (app_removelast_last a Hne)) as H.
  rewrite length_app in H. cbn [List.length] in H. lia.
Qed.

(** C6. On a tick without collision: when the moved head lands on a food
    of value [p], the score grows by exactly [p], the high score becomes
    the maximum of the old high score and the new score, and the snake is
    the old snake with the head prepended (one longer); when it lands on
    no food, score and high score stay and the snake keeps its length
    (head prepended, last segment removed). *)
Theorem tick_score_and_growth s h body tape c :
  snake s = h :: body ->
  hits s (newHead s h) = false ->
  let head := newHead s h in
  (forall p,
      (exists f, In f (foods s) /\ cell f = head) ->
      (forall f, In f (foods s) -> cell f = head -> points f = p) ->
      (Fair tape -> hasRoom s -> exists fuel r, tick fuel s tape c = Some r) /\
      (forall fuel s' c',
          tick fuel s tape c = Some (s', c') ->
          score s' = score s + p /\
          highScore s' = Z.max (highScore s) (score s') /\
          snake s' = head :: snake s /\
          List.length (snake s') = S (List.length (snake s)))) /\
  ((forall f, In f (foods s) -> cell f <> head) ->
   forall fuel,
   exists s',
     tick fuel s tape c = Some (s', c) /\
     score s' = score s /\ highScore s' = highScore s /\
     snake s' = head :: removelast (snake s) /\
     List.length (snake s') = List.length (snake s)).
Proof.
  intros Hs Hh head. split.
  - intros p Hex Hall. split.
    + intros Hfair Hroom. apply tick_total; assumption.
    + intros fuel s' c' Ht.
      destruct (foodUnder_Some s head Hex) as [i [f [Hf [Hn [Hin Hc]]]]].
      pose proof (tick_eat_inv fuel s tape c h body i f s' c' Hs Hh Hf Hn Ht) as H.
      cbv zeta in H. destruct H as [_ [_ [Hsn [Hsc [Hhi _]]]]].
      rewrite (Hall f Hin Hc) in *. fold head in Hsn.
      repeat split.
      * assumption.
      * rewrite Hhi, Hsc. apply Z.max_comm.
      * assumption.
      * rewrite Hsn. reflexivity.
  - intros Hno fuel.
    exists (set_moved (head :: removelast (snake s)) s).
    rewrite (tick_move fuel s tape c h body Hs Hh (foodUnder_None s head Hno)).
    repeat split. simpl. rewrite Hs, removelast_cons_length. reflexivity.
Qed.

Lemma tick_growth_witness :
  (exists fuel r, tick fuel appleAhead exampleTape 0%nat = Some r) /\
  exists s' c',
    tick 1 appleAhead exampleTape 0%nat = Some (s', c') /\
    score s' = 1 /\ List.length (snake s') = 2%nat.
Proof.
  destruct (tick_score_and_growth appleAhead (mkPoint 10 10) [] exampleTape 0%nat
              eq_refl eq_refl) as [Heat _].
  destruct (Heat 1) as [Htotal Hres].
  - exists (mkFood (mkPoint 11 10) apple 1). simpl. auto.
  - intros f [<-|[]] _. reflexivity.
  - split.
    + apply Htotal; [exact exampleTape_fair|].
      unfold hasRoom. simpl. lia.
    + destruct (tick 1 appleAhead exampleTape 0%nat) as [[s' c']|] eqn:E.
      * exists s', c'. destruct (Hres 1%nat s' c' E) as [H1 [_ [_ H4]]].
        repeat split; assumption.
      * vm_compute in E. discriminate E.
Defined.

(** ** Wall spawning *)

Lemma spawnsWall_true d n :
  spawnsWall d n = true <-> d <> extreme /\ positiveMultipleOfTen n.
Proof.
  unfold spawnsWall, positiveMultipleOfTen, WALL_SPAWN_SCORE.
  rewrite !andb_true_iff, negb_true_iff, Z.leb_le, Z.eqb_eq.
  split.
  - intros [[Hd Hle] Hrem]. split.
    + intros ->. discriminate.
    + exists (Z.quot n 10). pose proof (Z.quot_rem' n 10) as Hq.
      rewrite Hrem in Hq. lia.
  - intros [Hd [k [Hk ->]]]. repeat split.
    + destruct d; try reflexivity. congruence.
    + lia.
    + rewrite Z.mul_comm. apply Z.rem_mul. lia.
Qed.

(** C1, as the code has it.  A wall is added by a tick exactly when the
    difficulty is not extreme, the tick ends without collision, a food is
    eaten, and the score after eating is itself a positive multiple of 10
    (a score that passes over a multiple of 10 adds none).  The tick then
    adds exactly one wall, on a cell that holds no segment of the new
    snake, no food of the replenished foods and no earlier wall; every
    other tick leaves the walls as they were.  On a fair tape with room
    on the grid the tick finishes. *)
Theorem wall_added_on_reaching_multiple_of_ten s h body tape c :
  snake s = h :: body ->
  (Fair tape -> hasRoom s -> exists fuel r, tick fuel s tape c = Some r) /\
  (forall fuel s' c',
      tick fuel s tape c = Some (s', c') ->
      let head := newHead s h in
      let due := difficulty s <> extreme /\ hits s head = false /\
                 foodUnder s head <> None /\ positiveMultipleOfTen (score s') in
      (due ->
       exists wall,
         walls s' = walls s ++ [wall] /\
         ~ In wall (snake s') /\ ~ In wall (map cell (foods s')) /\
         ~ In wall (walls s)) /\
      (~ due -> walls s' = walls s)).
Proof.
  intros Hs. split; [intros; apply tick_total; assumption|].
  intros fuel s' c' Ht head due.
  destruct (hits s head) eqn:Hh.
  { rewrite (tick_hit fuel s tape c h body Hs Hh) in Ht. inversion Ht; subst.
    split; [|reflexivity]. intros [_ [Hcontra _]]. discriminate. }
  destruct (foodUnder s head) as [i|] eqn:Hf.
  2:{ rewrite (tick_move fuel s tape c h body Hs Hh Hf) in Ht.
      inversion Ht; subst. split; [|reflexivity].
      intros [_ [_ [Hcontra _]]]. congruence. }
  destruct (findIndex_Some _ _ _ Hf) as [f [Hn _]].
  pose proof (tick_eat_inv fuel s tape c h body i f s' c' Hs Hh Hf Hn Ht) as H.
  cbv zeta in H. destruct H as [_ [Hw [_ [Hsc _]]]].
  rewrite <- Hsc in Hw.
  destruct (spawnsWall (difficulty s) (score s')) eqn:Esp.
  - destruct Hw as [wall [Hwalls Hfree]]. split; [|intros; exfalso].
    + intros _. exists wall. split; [assumption|].
      apply occupied_false in Hfree. unfold taken in Hfree.
      rewrite !in_app_iff in Hfree. tauto.
    + apply spawnsWall_true in Esp. apply H. subst due.
      repeat split; try tauto. congruence.
  - split; [|intros; assumption].
    intros [Hd [_ [_ Hmul]]].
    assert (spawnsWall (difficulty s) (score s') = true)
      by (apply spawnsWall_true; auto).
    congruence.
Qed.

Lemma wall_added_witness :
  exists s' c' wall,
    tick 1 nineThenApple exampleTape 0%nat = Some (s', c') /\
    score s' = 10 /\ walls s' = [wall].
Proof.
  destruct (wall_added_on_reaching_multiple_of_ten
              nineThenApple (mkPoint 10 10) (tl longSnake) exampleTape 0%nat eq_refl)
    as [_ Hres].
  destruct (tick 1 nineThenApple exampleTape 0%nat) as [[s' c']|] eqn:E.
  - destruct (Hres 1%nat s' c' E) as [Hdue _].
    assert (Hscore : score s' = 10) by (vm_compute in E; inversion E; reflexivity).
    destruct Hdue as [wall [Hw _]].
    + repeat split; try discriminate. exists 1. rewrite Hscore. split; reflexivity.
    + exists s', c', wall. repeat split; assumption.
  - vm_compute in E. discriminate E.
Defined.

(** C1, as stated, fails: a banana eaten at score 9 takes the score over
    10 to 11, outside extreme mode, and no wall is added. *)
Lemma crossing_ten_adds_no_wall :
  exists s' c',
    tick 1 nineThenBanana exampleTape 0%nat = Some (s', c') /\
    difficulty nineThenBanana <> extreme /\
    score nineThenBanana < 10 <= score s' /\
    walls s' = walls nineThenBanana.
Proof.
  eexists. eexists. split; [vm_compute; reflexivity|].
  repeat split; discriminate.
Qed.

(** ** Direction input *)

Lemma Direction_eqb_eq (a b : Direction) : Direction_eqb a b = true <-> a = b.
Proof. destruct a, b; simpl; split; congruence. Qed.

Lemma handleDirectionClick_accepts s d :
  handleDirectionClick s d = [set_nextDirection d] <->
  isGameOver s = false /\ opposites d <> direction s.
Proof.
  unfold handleDirectionClick. destruct (isGameOver s).
  - split; [discriminate | intros [? _]; discriminate].
  - destruct (Direction_eqb (opposites d) (direction s)) eqn:E; simpl.
    + apply Direction_eqb_eq in E. split; [discriminate | tauto].
    + split; [|reflexivity]. intros _. split; [reflexivity|].
      intros Heq. apply Direction_eqb_eq in Heq. congruence.
Qed.

Lemma handleDirectionClick_cases s d :
  handleDirectionClick s d = [set_nextDirection d] \/ handleDirectionClick s d = [].
Proof.
  unfold handleDirectionClick. destruct (isGameOver s); [auto|].
  destruct (negb _); auto.
Qed.

Lemma handleKeyDown_key s key d :
  keyDirections key = Some d -> handleKeyDown s key = handleDirectionClick s d.
Proof. intros H. unfold handleKeyDown, handleDirectionClick. rewrite H. reflexivity. Qed.

Lemma handleKeyDown_other s key :
  keyDirections key = None -> handleKeyDown s key = [].
Proof. intros H. unfold handleKeyDown. rewrite H. destruct (isGameOver s); reflexivity. Qed.

(** C5, as the code has it.  A direction input (a button, a swipe, or a
    key bound to the direction) is accepted exactly when the game is not
    over and the input is not the opposite of the committed [direction];
    while the game is over every input is ignored.  An accepted input
    overwrites [nextDirection] and nothing else, an ignored one changes
    nothing, and in neither case does [direction] change: it is the next
    tick without collision that commits [nextDirection].  With
    [direction = RIGHT] in a running game, LEFT is ignored and DOWN sets
    [nextDirection] to DOWN. *)
Theorem direction_input_accepted_iff_running_and_not_opposite s d :
  (handleDirectionClick s d <> [] <->
   isGameOver s = false /\ opposites d <> direction s) /\
  (forall key, keyDirections key = Some d ->
               handleKeyDown s key = handleDirectionClick s d) /\
  (forall prev,
      let after := applyUpdates (handleDirectionClick s d) prev in
      direction after = direction prev /\
      (handleDirectionClick s d <> [] -> after = set_nextDirection d prev) /\
      (handleDirectionClick s d = [] -> after = prev)) /\
  (isGameOver s = false -> direction s = RIGHT ->
   applyUpdates (handleDirectionClick s LEFT) s = s /\
   nextDirection (applyUpdates (handleDirectionClick s DOWN) s) = DOWN /\
   direction (applyUpdates (handleDirectionClick s DOWN) s) = RIGHT) /\
  (forall fuel tape c h body s' c',
      snake s = h :: body -> hits s (newHead s h) = false ->
      tick fuel s tape c = Some (s', c') ->
      direction s' = nextDirection s).
Proof.
  split; [|split; [|split; [|split]]].
  - rewrite <- handleDirectionClick_accepts.
    destruct (handleDirectionClick_cases s d) as [-> | ->];
      split; congruence.
  - intros key. apply handleKeyDown_key.
  - intros prev after. subst after.
    destruct (handleDirectionClick_cases s d) as [-> | ->]; simpl;
      repeat split; congruence.
  - intros Hrun Hdir. unfold handleDirectionClick. rewrite Hrun, Hdir.
    simpl. rewrite Hdir. auto.
  - intros fuel tape c h body s' c' Hs Hh Ht.
    destruct (foodUnder s (newHead s h)) as [i|] eqn:Hf.
    + destruct (findIndex_Some _ _ _ Hf) as [f [Hn _]].
      pose proof (tick_eat_inv fuel s tape c h body i f s' c' Hs Hh Hf Hn Ht) as H.
      cbv zeta in H. tauto.
    + rewrite (tick_move fuel s tape c h body Hs Hh Hf) in Ht.
      inversion Ht; subst. reflexivity.
Qed.

(** C5, as stated, fails: once the game is over, DOWN is not the opposite
    of the committed RIGHT and is ignored all the same. *)
Lemma input_ignored_when_game_over :
  opposites DOWN <> direction overHeadingRight /\
  handleDirectionClick overHeadingRight DOWN = [] /\
  handleKeyDown overHeadingRight "ArrowDown" = [] /\
  nextDirection
    (applyUpdates (handleDirectionClick overHeadingRight DOWN) overHeadingRight)
  = RIGHT.
Proof. repeat split. discriminate. Qed.

(** ** The invariant of a session *)

Lemma opposites_neq (d : Direction) : d <> opposites d.
Proof. destruct d; discriminate. Qed.

Lemma opposites_swap (a b : Direction) : opposites a <> b -> a <> opposites b.
Proof. destruct a, b; simpl; congruence. Qed.

Lemma Inv_restarted f d high color : wellPriced f -> Inv (restarted f d high color).
Proof.
  intros Hf. unfold Inv, restarted, initialState. simpl.
  repeat split; try discriminate; try lia. constructor; auto.
Qed.

Lemma Inv_initialState f : wellPriced f -> Inv (initialState f).
Proof.
  intros Hf. unfold Inv, initialState. simpl.
  repeat split; try discriminate; try lia. constructor; auto.
Qed.

Lemma filterIndex_Forall {A} (P : A -> Prop) keep (l : list A) :
  Forall P l -> Forall P (filterIndex keep l).
Proof.
  rewrite !Forall_forall. intros H a Ha. apply H.
  unfold filterIndex in Ha. eapply filterIndexFrom_In. eassumption.
Qed.

Lemma foodCount_mono a b : a <= b -> foodCount a <= foodCount b.
Proof.
  intros H. unfold foodCount, MULTI_FOOD_SCORE.
  pose proof (Z.div_le_mono a b 5 ltac:(lia) H). lia.
Qed.

Lemma foodCount_pos a : MULTI_FOOD_SCORE <= a -> 1 <= foodCount a.
Proof.
  unfold foodCount, MULTI_FOOD_SCORE. intros H.
  pose proof (Z.div_le_mono 5 a 5 ltac:(lia) H) as Hd.
  change (5 / 5) with 1 in Hd. lia.
Qed.

Lemma tick_Inv fuel s tape c s' c' :
  Inv s -> tick fuel s tape c = Some (s', c') -> Inv s'.
Proof.
  intros [Hdir [Hne [Hpriced [Hscore Hcount]]]] Ht.
  destruct (snake s) as [|h body] eqn:Hs; [congruence|].
  destruct (hits s (newHead s h)) eqn:Hh.
  { rewrite (tick_hit fuel s tape c h body Hs Hh) in Ht. inversion Ht; subst.
    unfold Inv. simpl. rewrite Hs. repeat split; auto. }
  destruct (foodUnder s (newHead s h)) as [i|] eqn:Hf.
  2:{ rewrite (tick_move fuel s tape c h body Hs Hh Hf) in Ht.
      inversion Ht; subst. unfold Inv. simpl.
      repeat split; auto; [apply opposites_neq | discriminate]. }
  destruct (findIndex_Some _ _ _ Hf) as [f [Hn _]].
  pose proof (tick_eat_inv fuel s tape c h body i f s' c' Hs Hh Hf Hn Ht) as H.
  cbv zeta in H.
  destruct H as [[added [Hfoods [Hlen Hadd]]] [_ [Hsn [Hsc [_ [Hd [Hnd _]]]]]]].
  pose proof (filterIndex_length _ _ _ Hn) as Hkept.
  assert (Hf13 : 1 <= points f <= 3).
  { apply wellPriced_pos. rewrite Forall_forall in Hpriced.
    apply Hpriced. eapply nth_error_In. eassumption. }
  unfold Inv. rewrite Hd, Hnd, Hsn, Hsc, Hfoods.
  split; [apply opposites_neq|]. split; [discriminate|].
  split; [apply Forall_app; split; [apply filterIndex_Forall|]; assumption|].
  split; [lia|].
  rewrite length_app, Hlen. unfold replenishCount.
  set (kept := filterIndex (fun j => negb (Nat.eqb j i)) (foods s)) in *.
  unfold MULTI_FOOD_SCORE in *.
  destruct (Z.leb_spec 5 (score s + points f)) as [Hge|Hlt];
    destruct (Z.ltb_spec (score s + points f) 5) as [Hlt'|Hge']; try lia;
    destruct (Z.ltb_spec (score s) 5) as [Hs5|Hs5]; try lia.
  - pose proof (foodCount_pos (score s + points f) Hge). lia.
  - pose proof (foodCount_mono (score s) (score s + points f) ltac:(lia)). lia.
Qed.

Lemma step_Inv f0 e s tape c s' c' :
  wellPriced f0 -> Inv s -> step f0 e s tape c = Some (s', c') -> Inv s'.
Proof.
  intros Hf0 Hinv Hstep. destruct e; simpl in Hstep.
  - destruct (isGameOver s || isPaused s).
    + inversion Hstep; subst. assumption.
    + eapply tick_Inv; eassumption.
  - inversion Hstep; subst; clear Hstep.
    destruct (keyDirections key) as [d|] eqn:Hk.
    + rewrite (handleKeyDown_key s key d Hk).
      destruct (handleDirectionClick_cases s d) as [E|E]; rewrite E; simpl;
        [|assumption].
      apply handleDirectionClick_accepts in E. destruct E as [_ E].
      destruct Hinv as [_ Hrest]. split; [|exact Hrest].
      simpl. apply opposites_swap. assumption.
    + rewrite (handleKeyDown_other s key Hk). assumption.
  - inversion Hstep; subst; clear Hstep.
    destruct (handleDirectionClick_cases s d) as [E|E]; rewrite E; simpl;
      [|assumption].
    apply handleDirectionClick_accepts in E. destruct E as [_ E].
    destruct Hinv as [_ Hrest]. split; [|exact Hrest].
    simpl. apply opposites_swap. assumption.
  - inversion Hstep; subst. exact Hinv.
  - inversion Hstep; subst. simpl. apply Inv_restarted. assumption.
  - inversion Hstep; subst. simpl. apply Inv_restarted. assumption.
  - inversion Hstep; subst. exact Hinv.
Qed.

Lemma run_Inv f0 tape :
  wellPriced f0 ->
  forall events s c s' c',
    Inv s -> run f0 events s tape c = Some (s', c') -> Inv s'.
Proof.
  intros Hf0. induction events as [|e events IH]; intros s c s' c' Hinv Hrun.
  - inversion Hrun; subst. assumption.
  - simpl in Hrun. unfold bind in Hrun.
    destruct (step f0 e s tape c) as [[s1 c1]|] eqn:E; [|discriminate].
    eapply IH; [|eassumption]. eapply step_Inv; eassumption.
Qed.

Lemma reachable_Inv tape s c : reachable tape s c -> Inv s.
Proof.
  intros [fuel [f0 [c0 [events [Hmount Hrun]]]]].
  apply createFood_inv in Hmount. destruct Hmount as [_ [Hf0 _]].
  eapply run_Inv; [exact Hf0 | | exact Hrun].
  apply Inv_initialState. assumption.
Qed.

Lemma exampleEvents_reach : reachable exampleTape beforeFirstApple 3.
Proof.
  exists 1%nat, (mkFood (mkPoint 0 0) apple 1), 3%nat, exampleEvents.
  split; vm_compute; reflexivity.
Qed.



(** C3. In a session, after a tick in which a food was eaten: if the new
    score is at least 5, the number of foods is [min(3, floor(score/5))];
    if it is below 5, the foods are the remaining ones followed by exactly
    one new food.  On a fair tape with room on the grid the tick
    finishes. *)
Theorem food_count_after_eating tape s c h body i :
  reachable tape s c ->
  snake s = h :: body ->
  hits s (newHead s h) = false ->
  foodUnder s (newHead s h) = Some i ->
  (Fair tape -> hasRoom s -> exists fuel r, tick fuel s tape c = Some r) /\
  (forall fuel s' c',
      tick fuel s tape c = Some (s', c') ->
      (MULTI_FOOD_SCORE <= score s' ->
       Z.of_nat (List.length (foods s')) = Z.min 3 (score s' / MULTI_FOOD_SCORE)) /\
      (score s' < MULTI_FOOD_SCORE ->
       exists food,
         foods s' = filterIndex (fun j => negb (Nat.eqb j i)) (foods s) ++ [food] /\
         List.length (foods s') = List.length (foods s))).
Proof.
  intros Hreach Hs Hh Hf. split; [intros; apply tick_total; assumption|].
  intros fuel s' c' Ht. apply reachable_Inv in Hreach.
  pose proof (tick_Inv fuel s tape c s' c' Hreach Ht) as [_ [_ [_ [_ Hcount]]]].
  destruct (findIndex_Some _ _ _ Hf) as [f [Hn _]].
  pose proof (tick_eat_inv fuel s tape c h body i f s' c' Hs Hh Hf Hn Ht) as H.
  cbv zeta in H. destruct H as [[added [Hfoods [Hlen _]]] [_ [_ [Hsc _]]]].
  rewrite <- Hsc in Hlen. unfold replenishCount in Hlen.
  pose proof (filterIndex_length _ _ _ Hn) as Hkept.
  split.
  - intros Hge. rewrite Hcount.
    destruct (Z.ltb_spec (score s') MULTI_FOOD_SCORE); [lia|reflexivity].
  - intros Hlt.
    destruct (Z.leb_spec MULTI_FOOD_SCORE (score s')); [lia|].
    destruct added as [|food [|? ?]]; try discriminate.
    exists food. split; [assumption|].
    rewrite Hfoods, length_app. simpl. lia.
Qed.

Lemma food_count_witness :
  exists s' c',
    tick 5 beforeFirstApple exampleTape 3%nat = Some (s', c') /\
    score s' = 1 /\ List.length (foods s') = 1%nat.
Proof.
  destruct (food_count_after_eating exampleTape beforeFirstApple 3
              (mkPoint 1 0) [] 0 exampleEvents_reach eq_refl eq_refl eq_refl)
    as [_ Hres].
  destruct (tick 5 beforeFirstApple exampleTape 3%nat) as [[s' c']|] eqn:E.
  - assert (Hscore : score s' = 1) by (vm_compute in E; inversion E; reflexivity).
    destruct (Hres 5%nat s' c' E) as [_ Hlow].
    destruct Hlow as [food [_ Hlen]]; [rewrite Hscore; reflexivity|].
    exists s', c'. split; [reflexivity|]. split; [exact Hscore|].
    rewrite Hlen. reflexivity.
  - vm_compute in E. discriminate E.
Defined.

End SnakeSpec.

(* ================================================================== *)
(** * Properties of the Flappy Bird engine *)

Module FlappySpec.

Import Flappy.
Local Open Scope Q_scope.

(** ** Pipes *)

(** C8, as stated, fails in easy mode: the draw 19/20 puts the top pipe
    at 411, above [CANVAS_HEIGHT - 200 - 50 = 390]. *)
Lemma easy_pipe_exceeds_claimed_range :
  0 <= 19 # 20 /\ 19 # 20 < 1 /\
  topHeight (createPipe (19 # 20)) == 411 /\
  ~ topHeight (createPipe (19 # 20))
    <= CANVAS_HEIGHT - pipeGap (DIFFICULTY_SETTINGS easy) - 50.
Proof.
  repeat split; vm_compute; congruence.
Qed.

(** C8, as the code has it.  For every difficulty and every draw in
    [0,1), a new pipe has [x = CANVAS_WIDTH], is not passed, and has its
    [topHeight] in [50, CANVAS_HEIGHT - PIPE_GAP - 50) = [50, 430): the
    range is that of the fixed [PIPE_GAP = 160], whatever the difficulty.
    It lies within [50, CANVAS_HEIGHT - gap - 50] for the gaps of normal
    (160) and hard (140); the gap of easy is 200. *)
Theorem createPipe_range (d : Difficulty) (random : Q) :
  0 <= random -> random < 1 ->
  let pipe := createPipe random in
  x pipe = CANVAS_WIDTH /\ passed pipe = false /\
  50 <= topHeight pipe /\
  topHeight pipe < CANVAS_HEIGHT - PIPE_GAP - 50 /\
  (d <> easy ->
   topHeight pipe <= CANVAS_HEIGHT - pipeGap (DIFFICULTY_SETTINGS d) - 50) /\
  pipeGap (DIFFICULTY_SETTINGS easy) == 200 /\
  pipeGap (DIFFICULTY_SETTINGS normal) == 160 /\
  pipeGap (DIFFICULTY_SETTINGS hard) == 140.
Proof.
  intros H0 H1 pipe. subst pipe.
  unfold createPipe, CANVAS_HEIGHT, CANVAS_WIDTH, PIPE_GAP. cbn [x passed topHeight].
  repeat split; try reflexivity; try lra.
  intros Hd. destruct d; [congruence| |];
    unfold DIFFICULTY_SETTINGS, PIPE_GAP; cbn [pipeGap]; lra.
Qed.

Lemma createPipe_range_witness :
  50 <= topHeight (createPipe (1 # 2)) /\
  topHeight (createPipe (1 # 2)) < CANVAS_HEIGHT - PIPE_GAP - 50.
Proof.
  destruct (createPipe_range hard (1 # 2)) as [_ [_ [Hlo [Hhi _]]]].
  - vm_compute. discriminate.
  - vm_compute. reflexivity.
  - split; assumption.
Defined.

(** ** The bird *)

(** Whatever else a frame does, the three fields of the new bird are
    computed from the bird before the frame. *)
Lemma updateWith_bird settings now random w :
  bird (state (updateWith settings now random w)) =
  mkBird (y (bird (state w)) + velocity (bird (state w)))
         (velocity (bird (state w)) + gravity settings)
         (Qmin (Math_PI / 2)
               (Qmax (- Math_PI / 4) (velocity (bird (state w)) * (1 # 10)))).
Proof.
  unfold updateWith. cbv zeta.
  destruct (Qlt_bool _ _ || Qlt_bool _ _); [reflexivity|].
  destruct (scanPipes _ _ _ _) as [[scanned newScore] hit].
  destruct hit; reflexivity.
Qed.

Lemma update_started_not_over t0 now random w0 :
  difficulty (state w0) = normal ->
  isGameOver (state (update (state (startGame t0 w0)) now random (startGame t0 w0)))
  = false.
Proof.
  intros Hd. unfold update, startGame. cbn [state isPlaying isGameOver difficulty
    negb orb initialState]. rewrite Hd.
  unfold updateWith. cbv zeta.
  cbn [state lastPipeRef pipes bird map filter DIFFICULTY_SETTINGS pipeInterval
       initialState].
  destruct (150 <? now - t0)%Z; vm_compute; reflexivity.
Qed.

(** C2, as stated, fails: after the first frame of a game just started
    in normal difficulty the rotation is exactly 0, at distance 0.04 from
    the claimed value. *)
Lemma first_frame_rotation_is_zero :
  let w := startGame 0 mounted in
  let w' := step (Frame 16 (1 # 2)) w in
  difficulty (state w) = normal /\
  y (bird (state w)) == 320 /\ velocity (bird (state w)) == 0 /\
  rotation (bird (state w')) == 0 /\
  ~ Qabs (rotation (bird (state w')) - (4 # 100)) < 4 # 100.
Proof.
  repeat split; vm_compute; congruence.
Qed.

(** C2, as the code has it.  A frame computes all three fields of the
    bird from the bird before the frame: [y] grows by the old velocity,
    the rotation is the old velocity times 0.1 clamped to [-PI/4, PI/2],
    and the velocity grows by the gravity of the difficulty.  Started in
    normal difficulty (bird at 320 with velocity 0), the first frame
    therefore gives velocity 0.4, [y] 320 and rotation 0, and the game is
    not over. *)
Theorem first_frame_from_rest t0 now random w0 :
  difficulty (state w0) = normal ->
  let w := startGame t0 w0 in
  let w' := step (Frame now random) w in
  (y (bird (state w)) == 320 /\ velocity (bird (state w)) == 0) /\
  (velocity (bird (state w')) == 4 # 10 /\
   y (bird (state w')) == 320 /\
   rotation (bird (state w')) == 0 /\
   isGameOver (state w') = false) /\
  (y (bird (state w')) = y (bird (state w)) + velocity (bird (state w)) /\
   velocity (bird (state w')) =
     velocity (bird (state w)) + gravity (DIFFICULTY_SETTINGS normal) /\
   rotation (bird (state w')) =
     Qmin (Math_PI / 2)
          (Qmax (- Math_PI / 4) (velocity (bird (state w)) * (1 # 10)))).
Proof.
  intros Hd w w'.
  assert (Hb : bird (state w') =
               mkBird (y (bird (state w)) + velocity (bird (state w)))
                      (velocity (bird (state w)) + gravity (DIFFICULTY_SETTINGS normal))
                      (Qmin (Math_PI / 2)
                            (Qmax (- Math_PI / 4)
                                  (velocity (bird (state w)) * (1 # 10))))).
  { subst w' w. unfold step, update, startGame.
    cbn [state isPlaying isGameOver difficulty negb orb initialState].
    rewrite Hd. apply updateWith_bird. }
  split; [split; vm_compute; reflexivity|]. split.
  - rewrite Hb. cbn [y velocity rotation].
    repeat split; try (vm_compute; reflexivity).
    subst w' w. apply update_started_not_over. assumption.
  - rewrite Hb. repeat split.
Qed.

Lemma first_frame_witness :
  rotation (bird (state (step (Frame 16 (1 # 2)) (startGame 0 mounted)))) == 0.
Proof.
  destruct (first_frame_from_rest 0 16 (1 # 2) mounted eq_refl)
    as [_ [[_ [_ [Hrot _]]] _]].
  exact Hrot.
Defined.

(** ** Flapping *)

(** A click or tap while the game is under way sets the velocity to
    [FLAP_STRENGTH] and changes nothing else. *)
Lemma click_flap w now :
  isPlaying (state w) = true -> isGameOver (state w) = false ->
  let w' := step (Click now) w in
  velocity (bird (state w')) = FLAP_STRENGTH /\
  y (bird (state w')) = y (bird (state w)) /\
  rotation (bird (state w')) = rotation (bird (state w)) /\
  pipes (state w') = pipes (state w) /\
  score (state w') = score (state w) /\
  isPlaying (state w') = true /\ isGameOver (state w') = false /\
  lastPipeRef w' = lastPipeRef w.
Proof.
  intros Hp Hg. unfold step, handleClick. rewrite Hp, Hg. simpl.
  repeat split; assumption.
Qed.

(** C7 at the space bar.  In a game under way, with the bird at 400
    falling at 3 and two points scored, a press of the space bar sets the
    velocity to [FLAP_STRENGTH] but also restarts the game: the bird is
    back at 320, the pipes are gone and the score is 0.  The same flap by
    click leaves [y] at 400. *)
Theorem space_bar_flap_restarts_game :
  isPlaying (state midFlight) = true /\
  isGameOver (state midFlight) = false /\
  y (bird (state midFlight)) == 400 /\
  (let w' := step (KeyDown "Space" 2000) midFlight in
   velocity (bird (state w')) = FLAP_STRENGTH /\
   y (bird (state w')) == 320 /\
   ~ y (bird (state w')) == y (bird (state midFlight)) /\
   pipes (state w') = [] /\ score (state w') = 0%Z) /\
  (let w' := step (Click 2000) midFlight in
   velocity (bird (state w')) = FLAP_STRENGTH /\
   y (bird (state w')) = y (bird (state midFlight))).
Proof.
  repeat split; vm_compute; congruence.
Qed.

End FlappySpec.

(* ================================================================== *)
(** * Further properties of the Snake engine *)

Module SnakeMore.

Import Snake SnakeSpec.
Local Open Scope Z_scope.

(** ** Placement *)








(** With the sums of the weights taken exactly, [getRandomFoodType] reads
    one draw and returns apple below 0.4, banana in [0.4, 0.7), meat in
    [0.7, 0.9) and berry in [0.9, 1). *)
Lemma getRandomFoodType_thresholds tape c :
  exists t,
    getRandomFoodType tape c = Some (t, S c) /\
    ((tape c < 4 # 10)%Q -> t = apple) /\
    ((4 # 10 <= tape c)%Q -> (tape c < 7 # 10)%Q -> t = banana) /\
    ((7 # 10 <= tape c)%Q -> (tape c < 9 # 10)%Q -> t = meat) /\
    ((9 # 10 <= tape c)%Q -> (tape c < 1)%Q -> t = berry) /\
    ((1 <= tape c)%Q -> t = apple).
Proof.
  unfold getRandomFoodType, bind, Math_random, ret. eexists. split; [reflexivity|].
  set (r := tape c). unfold pickType.
  repeat match goal with
         | |- context [Qle_bool ?a r] =>
             let E := fresh "E" in
             destruct (Qle_bool a r) eqn:E;
             [apply Qle_bool_iff in E
             |assert (~ (a <= r)%Q) by (rewrite <- Qle_bool_iff; congruence);
              clear E]
         end;
    repeat split; intros; try reflexivity; exfalso; lra.
Qed.



(** ** The border walls *)

Lemma onBorder_true (p : Point) :
  onBorder p = true <->
  x p = 0 \/ x p = GRID_SIZE - 1 \/ y p = 0 \/ y p = GRID_SIZE - 1.
Proof.
  unfold onBorder. rewrite !orb_true_iff, !Z.eqb_eq. tauto.
Qed.

Lemma border_walls_iff (p : Point) :
  In p createBorderWalls <-> inGrid p /\ onBorder p = true.
Proof.
  unfold createBorderWalls. rewrite in_flat_map, onBorder_true.
  unfold inGrid, GRID_SIZE. change (Z.to_nat 20) with 20%nat. split.
  - intros [i [Hi Hp]]. apply in_map_iff in Hi. destruct Hi as [k [<- Hk]].
    apply in_seq in Hk.
    destruct Hp as [ <- | [ <- | [ <- | [ <- | [] ] ] ] ]; cbn [x y]; lia.
  - intros [[Hx Hy] Hb].
    assert (Hin : forall i, 0 <= i < 20 -> In i (map Z.of_nat (seq 0 20))).
    { intros i Hi. apply in_map_iff. exists (Z.to_nat i).
      split; [lia|]. apply in_seq. lia. }
    destruct p as [px py]. cbn [x y] in *.
    destruct Hb as [ -> | [ -> | [ -> | -> ] ] ].
    + exists py. split; [auto|]. simpl. auto.
    + exists py. split; [auto|]. simpl. auto.
    + exists px. split; [auto|]. simpl. auto.
    + exists px. split; [auto|]. simpl. auto.
Qed.

(** X3. [createBorderWalls] walls exactly the border of the grid: a cell
    is among the walls if and only if it is on the grid with a coordinate
    equal to 0 or [GRID_SIZE - 1].  The list has 80 entries, the four
    corners being pushed twice. *)
Theorem createBorderWalls_is_the_border (p : Point) :
  (In p createBorderWalls <-> inGrid p /\ onBorder p = true) /\
  List.length createBorderWalls = 80%nat.
Proof.
  split; [apply border_walls_iff | reflexivity].
Qed.

(** ** Swipes *)

Lemma Qgt_bool_true (a b : Q) : Qgt_bool a b = true <-> (b < a)%Q.
Proof.
  unfold Qgt_bool. rewrite negb_true_iff. split.
  - intros H. apply Qnot_le_lt. intros Hle.
    apply Qle_bool_iff in Hle. congruence.
  - intros H. destruct (Qle_bool a b) eqn:E; [|reflexivity].
    apply Qle_bool_iff in E. lra.
Qed.

Lemma Qgt_bool_false (a b : Q) : Qgt_bool a b = false <-> (a <= b)%Q.
Proof.
  unfold Qgt_bool. rewrite negb_false_iff. apply Qle_bool_iff.
Qed.

Lemma Qabs_cases (q : Q) :
  ((0 <= q)%Q /\ (Qabs q == q)%Q) \/ ((q <= 0)%Q /\ (Qabs q == - q)%Q).
Proof.
  destruct (Qlt_le_dec q 0) as [H|H].
  - right. split; [lra|]. apply Qabs_neg. lra.
  - left. split; [assumption|]. apply Qabs_pos. assumption.
Qed.

Lemma swipeOf_spec (dx dy : Q) :
  (swipeOf dx dy = None <->
   (Qabs dx <= SWIPE_THRESHOLD)%Q /\ (Qabs dy <= SWIPE_THRESHOLD)%Q) /\
  (swipeOf dx dy = Some RIGHT <-> (SWIPE_THRESHOLD < dx)%Q /\ (Qabs dy < dx)%Q) /\
  (swipeOf dx dy = Some LEFT <-> (dx < - SWIPE_THRESHOLD)%Q /\ (Qabs dy < - dx)%Q) /\
  (swipeOf dx dy = Some DOWN <-> (SWIPE_THRESHOLD < dy)%Q /\ (Qabs dx <= dy)%Q) /\
  (swipeOf dx dy = Some UP <-> (dy < - SWIPE_THRESHOLD)%Q /\ (Qabs dx <= - dy)%Q).
Proof.
  unfold swipeOf, SWIPE_THRESHOLD. cbv zeta.
  destruct (Q.max_spec (Qabs dx) (Qabs dy)) as [[Hm1 Hm2]|[Hm1 Hm2]];
    destruct (Qabs_cases dx) as [[Hx1 Hx2]|[Hx1 Hx2]];
    destruct (Qabs_cases dy) as [[Hy1 Hy2]|[Hy1 Hy2]];
    destruct (Qgt_bool (Qmax (Qabs dx) (Qabs dy)) 50) eqn:E1;
    destruct (Qgt_bool (Qabs dx) (Qabs dy)) eqn:E2;
    destruct (Qgt_bool dx 0) eqn:E3;
    destruct (Qgt_bool dy 0) eqn:E4;
    repeat match goal with
           | H : Qgt_bool _ _ = true |- _ => apply Qgt_bool_true in H
           | H : Qgt_bool _ _ = false |- _ => apply Qgt_bool_false in H
           end;
    repeat split; intros; try discriminate; try reflexivity;
      try lra; exfalso; lra.
Qed.

(** X4. A swipe decodes to the direction of its longer axis, the vertical
    one on a tie, and only when that axis moved more than
    [SWIPE_THRESHOLD] = 50 pixels; the reverse swipe decodes to the
    opposite direction.  A touch that ends with no recorded start does
    nothing, and every touch end clears the recorded start. *)
Theorem swipe_decoding start touch state :
  let dx := (clientX touch - clientX start)%Q in
  let dy := (clientY touch - clientY start)%Q in
  (swipeDirection start touch = None <->
   (Qabs dx <= 50)%Q /\ (Qabs dy <= 50)%Q) /\
  (swipeDirection start touch = Some RIGHT <-> (50 < dx)%Q /\ (Qabs dy < dx)%Q) /\
  (swipeDirection start touch = Some LEFT <-> (dx < - (50))%Q /\ (Qabs dy < - dx)%Q) /\
  (swipeDirection start touch = Some DOWN <-> (50 < dy)%Q /\ (Qabs dx <= dy)%Q) /\
  (swipeDirection start touch = Some UP <-> (dy < - (50))%Q /\ (Qabs dx <= - dy)%Q) /\
  swipeDirection touch start = option_map opposites (swipeDirection start touch) /\
  handleTouchEnd state None touch = ([], None) /\
  snd (handleTouchEnd state (Some start) touch) = None.
Proof.
  intros dx dy.
  pose proof (swipeOf_spec dx dy) as [Hn [Hr [Hl [Hd Hu]]]].
  fold (swipeDirection start touch) in Hn, Hr, Hl, Hd, Hu.
  unfold SWIPE_THRESHOLD in *.
  do 5 (split; [assumption|]). split; [|split; reflexivity].
  set (dx' := (clientX start - clientX touch)%Q).
  set (dy' := (clientY start - clientY touch)%Q).
  pose proof (swipeOf_spec dx' dy') as [Hn' [Hr' [Hl' [Hd' Hu']]]].
  fold (swipeDirection touch start) in Hn', Hr', Hl', Hd', Hu'.
  unfold SWIPE_THRESHOLD in *.
  assert (Ex : (dx' == - dx)%Q) by (subst dx dx'; ring).
  assert (Ey : (dy' == - dy)%Q) by (subst dy dy'; ring).
  assert (Ax : (Qabs dx' == Qabs dx)%Q) by (rewrite Ex; apply Qabs_opp).
  assert (Ay : (Qabs dy' == Qabs dy)%Q) by (rewrite Ey; apply Qabs_opp).
  change (swipeDirection start touch) with (swipeOf dx dy).
  change (swipeDirection touch start) with (swipeOf dx' dy').
  destruct (swipeOf dx dy) as [[| | |]|] eqn:E; simpl.
  - apply Hd'. destruct Hu as [Hu _]. specialize (Hu eq_refl). lra.
  - apply Hu'. destruct Hd as [Hd _]. specialize (Hd eq_refl). lra.
  - apply Hr'. destruct Hl as [Hl _]. specialize (Hl eq_refl). lra.
  - apply Hl'. destruct Hr as [Hr _]. specialize (Hr eq_refl). lra.
  - apply Hn'. destruct Hn as [Hn _]. specialize (Hn eq_refl). lra.
Qed.

(** ** The game loop *)






(** ** Pause and game over *)

Lemma run_app f0 tape (l1 l2 : list Event) :
  forall s c,
    run f0 (l1 ++ l2) s tape c =
    match run f0 l1 s tape c with
    | Some (s1, c1) => run f0 l2 s1 tape c1
    | None => None
    end.
Proof.
  induction l1 as [|e l1 IH]; intros s c; simpl.
  - reflexivity.
  - unfold bind. destruct (step f0 e s tape c) as [[s1 c1]|]; [apply IH|reflexivity].
Qed.

Lemma run_ticks_paused f0 tape fuels :
  forall s c,
    isPaused s = true ->
    run f0 (map Tick fuels) s tape c = Some (s, c).
Proof.
  induction fuels as [|fuel fuels IH]; intros s c Hp; simpl.
  - reflexivity.
  - unfold bind. rewrite Hp, orb_true_r. unfold ret. apply IH. assumption.
Qed.

(** X6. Pausing freezes the game: from a state that is not paused,
    pausing, any number of due ticks, and resuming give back exactly the
    state and the random cursor from before. *)
Theorem pause_freezes_the_game f0 s tape c fuels :
  isPaused s = false ->
  run f0 (TogglePause :: map Tick fuels ++ [TogglePause]) s tape c = Some (s, c).
Proof.
  intros Hp. change (TogglePause :: map Tick fuels ++ [TogglePause])
    with ([TogglePause] ++ map Tick fuels ++ [TogglePause]).
  rewrite run_app. simpl. unfold bind, ret. rewrite Hp. simpl.
  rewrite run_app, run_ticks_paused by reflexivity.
  simpl. unfold bind, ret. destruct s. simpl in *. subst. reflexivity.
Qed.

Lemma pause_freezes_witness :
  run (mkFood (mkPoint 0 0) apple 1)
      (TogglePause :: map Tick [1; 1; 1]%nat ++ [TogglePause])
      appleAhead exampleTape 0%nat = Some (appleAhead, 0%nat).
Proof.
  apply (pause_freezes_the_game (mkFood (mkPoint 0 0) apple 1) appleAhead
           exampleTape 0%nat [1; 1; 1]%nat).
  reflexivity.
Defined.



(** ** The high score *)

Lemma tick_highScore fuel s tape c s' c' :
  tick fuel s tape c = Some (s', c') -> highScore s <= highScore s'.
Proof.
  intros Ht. destruct (snake s) as [|h body] eqn:Hs.
  - unfold tick, moveSnake, bind in Ht. rewrite Hs in Ht.
    inversion Ht; subst. simpl. lia.
  - destruct (hits s (newHead s h)) eqn:Hh.
    { rewrite (tick_hit fuel s tape c h body Hs Hh) in Ht.
      inversion Ht; subst. simpl. lia. }
    destruct (foodUnder s (newHead s h)) as [i|] eqn:Hf.
    + destruct (findIndex_Some _ _ _ Hf) as [f [Hn _]].
      pose proof (tick_eat_inv fuel s tape c h body i f s' c' Hs Hh Hf Hn Ht) as H.
      cbv zeta in H. destruct H as [_ [_ [_ [_ [Hhi _]]]]]. lia.
    + rewrite (tick_move fuel s tape c h body Hs Hh Hf) in Ht.
      inversion Ht; subst. simpl. lia.
Qed.

Lemma step_highScore f0 e s tape c s' c' :
  step f0 e s tape c = Some (s', c') -> highScore s <= highScore s'.
Proof.
  intros H. destruct e; simpl in H.
  - destruct (isGameOver s || isPaused s).
    + inversion H; subst. lia.
    + eapply tick_highScore; eassumption.
  - inversion H; subst. unfold handleKeyDown.
    destruct (isGameOver s); [simpl; lia|].
    destruct (keyDirections key); [|simpl; lia].
    destruct (negb _); simpl; lia.
  - inversion H; subst. unfold handleDirectionClick.
    destruct (isGameOver s); [simpl; lia|].
    destruct (negb _); simpl; lia.
  - inversion H; subst. simpl. lia.
  - inversion H; subst. simpl. lia.
  - inversion H; subst. simpl. lia.
  - inversion H; subst. simpl. lia.
Qed.

(** X8. The high score never goes down: whatever the events (ticks,
    inputs, pauses, resets, difficulty changes, colour picks), the high
    score after them is at least the high score before. *)
Theorem highScore_never_decreases f0 tape events :
  forall s c s' c',
    run f0 events s tape c = Some (s', c') -> highScore s <= highScore s'.
Proof.
  induction events as [|e events IH]; intros s c s' c' H; simpl in H.
  - inversion H; subst. lia.
  - unfold bind in H.
    destruct (step f0 e s tape c) as [[s1 c1]|] eqn:E; [|discriminate].
    apply step_highScore in E. apply IH in H. lia.
Qed.

Lemma highScore_never_decreases_witness :
  exists s' c',
    run (mkFood (mkPoint 0 0) apple 1) [Tick 1; ResetGame]
        nineThenApple exampleTape 0%nat = Some (s', c') /\
    9 <= highScore s'.
Proof.
  destruct (run (mkFood (mkPoint 0 0) apple 1) [Tick 1; ResetGame]
                nineThenApple exampleTape 0%nat) as [[s' c']|] eqn:E.
  - exists s', c'. split; [reflexivity|].
    exact (highScore_never_decreases _ _ _ _ _ _ _ E).
  - vm_compute in E. discriminate E.
Defined.

(** ** The board of a session *)

Lemma removelast_In {A} (l : list A) (a : A) : In a (removelast l) -> In a l.
Proof.
  destruct l as [|b l]; [auto|]. intros H.
  rewrite (app_removelast_last b (l := b :: l)) by discriminate.
  apply in_or_app. left. exact H.
Qed.

Lemma removelast_NoDup {A} (l : list A) : NoDup l -> NoDup (removelast l).
Proof.
  destruct l as [|b l]; [auto|]. intros H.
  rewrite (app_removelast_last b (l := b :: l)) in H by discriminate.
  eapply NoDup_app_remove_r. exact H.
Qed.

Lemma removelast_Forall {A} (P : A -> Prop) (l : list A) :
  Forall P l -> Forall P (removelast l).
Proof.
  rewrite !Forall_forall. intros H a Ha. apply H. apply removelast_In. exact Ha.
Qed.

Lemma filterIndexFrom_nth {A} (keep : nat -> bool) (l : list A) :
  forall i a, In a (filterIndexFrom keep i l) ->
              exists j, keep (i + j)%nat = true /\ nth_error l j = Some a.
Proof.
  induction l as [|b l IH]; simpl; intros i a H; [contradiction|].
  destruct (keep i) eqn:E.
  - destruct H as [->|H].
    + exists O. rewrite Nat.add_0_r. auto.
    + destruct (IH _ _ H) as [j [Hk Hn]]. exists (S j).
      rewrite Nat.add_succ_r. auto.
  - destruct (IH _ _ H) as [j [Hk Hn]]. exists (S j).
    rewrite Nat.add_succ_r. auto.
Qed.

Lemma filterIndexFrom_NoDup_map {A B} (g : A -> B) (keep : nat -> bool) (l : list A) :
  forall i, NoDup (map g l) -> NoDup (map g (filterIndexFrom keep i l)).
Proof.
  induction l as [|b l IH]; simpl; intros i H; [constructor|].
  inversion H as [|? ? Hnotin Hrest]; subst.
  destruct (keep i); [|auto].
  simpl. constructor; [|auto].
  intros Hin. apply Hnotin. apply in_map_iff in Hin.
  destruct Hin as [a [Ha Hin]]. apply in_map_iff. exists a.
  split; [assumption|]. eapply filterIndexFrom_In. eassumption.
Qed.

(** The foods kept when the food at index [i] is eaten lie on other cells. *)
Lemma kept_foods_elsewhere (foods : list Food) (i : nat) (eaten f : Food) :
  NoDup (map cell foods) ->
  nth_error foods i = Some eaten ->
  In f (filterIndex (fun j => negb (Nat.eqb j i)) foods) ->
  In f foods /\ cell f <> cell eaten.
Proof.
  intros Hnd Hi Hin. split.
  - unfold filterIndex in Hin. eapply filterIndexFrom_In. eassumption.
  - unfold filterIndex in Hin. apply filterIndexFrom_nth in Hin.
    destruct Hin as [j [Hk Hj]]. simpl in Hk.
    apply negb_true_iff in Hk. apply Nat.eqb_neq in Hk.
    intros Heq. apply Hk.
    pose proof (proj1 (NoDup_nth_error (map cell foods)) Hnd j i) as Hinj.
    apply Hinj.
    + rewrite length_map. apply nth_error_Some. congruence.
    + rewrite (map_nth_error cell _ _ Hj), (map_nth_error cell _ _ Hi).
      congruence.
Qed.

Lemma pushFoods_fresh fuel snake walls tape :
  forall n foods c foods' c',
    pushFoods fuel n snake foods walls tape c = Some (foods', c') ->
    NoDup (map cell foods) ->
    NoDup (map cell foods') /\
    forall f, In f foods' ->
              In f foods \/ (~ In (cell f) snake /\ ~ In (cell f) walls).
Proof.
  induction n as [|n IH]; intros foods c foods' c' H Hnd; simpl in H.
  - inversion H; subst. auto.
  - unfold bind in H.
    destruct (createFood fuel snake foods walls tape c) as [[f c1]|] eqn:E;
      [|discriminate].
    apply createFood_inv in E. destruct E as [Hfree _].
    apply occupied_false in Hfree. unfold taken in Hfree.
    rewrite !in_app_iff in Hfree.
    destruct (IH _ _ _ _ H) as [Hnd' Hin'].
    { rewrite map_app. apply NoDup_app; [assumption|repeat constructor; auto|].
      intros a Ha [<-|[]]. tauto. }
    split; [assumption|].
    intros g Hg. destruct (Hin' g Hg) as [Hold|Hnew]; [|auto].
    apply in_app_iff in Hold. destruct Hold as [Hold|[<-|[]]]; [auto|].
    right. tauto.
Qed.

Lemma replenish_fresh fuel newScore snake foods walls tape c foods' c' :
  replenish fuel newScore snake foods walls tape c = Some (foods', c') ->
  NoDup (map cell foods) ->
  NoDup (map cell foods') /\
  forall f, In f foods' ->
            In f foods \/ (~ In (cell f) snake /\ ~ In (cell f) walls).
Proof.
  unfold replenish. destruct (MULTI_FOOD_SCORE <=? newScore);
    apply pushFoods_fresh.
Qed.

Lemma tick_eat_full fuel s tape c h body i f s' c' :
  snake s = h :: body ->
  hits s (newHead s h) = false ->
  foodUnder s (newHead s h) = Some i ->
  nth_error (foods s) i = Some f ->
  tick fuel s tape c = Some (s', c') ->
  exists newFoods newWalls c1,
    replenish fuel (score s + points f) (newHead s h :: snake s)
      (filterIndex (fun j => negb (Nat.eqb j i)) (foods s)) (walls s) tape c
    = Some (newFoods, c1) /\
    spawnWall fuel (difficulty s) (score s + points f) (newHead s h :: snake s)
      newFoods (walls s) tape c1 = Some (newWalls, c') /\
    s' = set_moved (newHead s h :: snake s)
           (set_eaten newFoods newWalls (score s + points f) s).
Proof.
  intros Hs Hh Hf Hn Ht. rewrite (tick_eat fuel s tape c h body i f Hs Hh Hf Hn) in Ht.
  destruct (replenish _ _ _ _ _ tape c) as [[newFoods c1]|] eqn:E1;
    [|discriminate].
  destruct (spawnWall _ _ _ _ _ _ tape c1) as [[newWalls c2]|] eqn:E2;
    [|discriminate].
  inversion Ht; subst. exists newFoods, newWalls, c1. auto.
Qed.

Lemma hits_false_parts s head :
  hits s head = false ->
  ~ In head (snake s) /\ ~ In head (walls s) /\
  (difficulty s = extreme -> onBorder head = false).
Proof.
  intros H. repeat split.
  - intros Hin. assert (hits s head = true) by (apply hits_true; auto). congruence.
  - intros Hin. assert (hits s head = true) by (apply hits_true; auto). congruence.
  - intros Hd. destruct (onBorder head) eqn:E; [|reflexivity].
    assert (hits s head = true) by (apply hits_true; auto). congruence.
Qed.

Lemma foodUnder_None_inv s head f :
  foodUnder s head = None -> In f (foods s) -> cell f <> head.
Proof.
  intros Hf Hin Heq.
  pose proof (findIndex_None _ _ Hf f Hin) as H. simpl in H.
  rewrite Heq, same_cell_refl in H. discriminate.
Qed.

Lemma tick_Board fuel s tape c s' c' :
  Board s -> tick fuel s tape c = Some (s', c') -> Board s'.
Proof.
  intros HB Ht. pose proof HB as [Hsn [Hfo [Hgr [Hfs [Hws Hcalm]]]]].
  case_eq (snake s); [intros Hs | intros h body Hs].
  { unfold tick, moveSnake, bind in Ht. rewrite Hs in Ht.
    inversion Ht; subst. unfold Board. simpl.
    repeat split; auto; try constructor; apply Hcalm; assumption. }
  destruct (hits s (newHead s h)) eqn:Hh.
  { rewrite (tick_hit fuel s tape c h body Hs Hh) in Ht.
    inversion Ht; subst. exact HB. }
  destruct (hits_false_parts _ _ Hh) as [Hhs [Hhw _]].
  assert (Hhg : inGrid (newHead s h)).
  { apply moveHead_inGrid. rewrite Forall_forall in Hgr. apply Hgr.
    rewrite Hs. left. reflexivity. }
  destruct (foodUnder s (newHead s h)) as [i|] eqn:Hf.
  2:{ rewrite (tick_move fuel s tape c h body Hs Hh Hf) in Ht.
      inversion Ht; subst. unfold Board. simpl.
      split; [|split; [|split; [|split; [|split]]]].
      - constructor; [|apply removelast_NoDup; assumption].
        intros Hin. apply Hhs. apply removelast_In. assumption.
      - assumption.
      - constructor; [assumption | apply removelast_Forall; assumption].
      - intros f Hin [Heq|Hin'].
        + exact (foodUnder_None_inv s _ f Hf Hin (eq_sym Heq)).
        + apply (Hfs f Hin). apply removelast_In. assumption.
      - intros w Hin [Heq|Hin'].
        + apply Hhw. rewrite Heq. assumption.
        + apply (Hws w Hin). apply removelast_In. assumption.
      - assumption. }
  destruct (findIndex_Some _ _ _ Hf) as [eaten [Hn Hsame]].
  apply same_cell_eq in Hsame.
  destruct (tick_eat_full fuel s tape c h body i eaten s' c' Hs Hh Hf Hn Ht)
    as [newFoods [newWalls [c1 [Hrep [Hwall ->]]]]].
  set (kept := filterIndex (fun j => negb (Nat.eqb j i)) (foods s)) in *.
  set (head := newHead s h) in *.
  assert (Hkept : forall f, In f kept -> In f (foods s) /\ cell f <> head).
  { intros f Hin. rewrite <- Hsame.
    apply (kept_foods_elsewhere (foods s) i eaten f Hfo Hn Hin). }
  destruct (replenish_fresh _ _ _ _ _ _ _ _ _ Hrep) as [Hnd' Hnew].
  { apply filterIndexFrom_NoDup_map. assumption. }
  assert (Hfood : forall f, In f newFoods ->
                            ~ In (cell f) (head :: snake s) /\
                            (difficulty s <> extreme -> ~ In (cell f) (walls s))).
  { intros f Hin. destruct (Hnew f Hin) as [Hold|[Hn1 Hn2]].
    - destruct (Hkept f Hold) as [Hin' Hne]. split.
      + intros [Heq|Hin'']; [congruence|]. exact (Hfs f Hin' Hin'').
      + intros Hd. apply (proj2 (Hcalm Hd)). assumption.
    - auto. }
  pose proof (spawnWall_inv _ _ _ _ _ _ _ _ _ _ Hwall) as Hw.
  unfold Board. simpl. split; [|split; [|split; [|split; [|split]]]].
  - constructor; assumption.
  - assumption.
  - constructor; assumption.
  - intros f Hin. apply (Hfood f Hin).
  - intros w Hin [Heq|Hin'].
    + destruct (spawnsWall (difficulty s) (score s + points eaten)).
      * destruct Hw as [wall [-> Hfree]]. apply occupied_false in Hfree.
        unfold taken in Hfree. rewrite !in_app_iff in Hfree.
        apply in_app_iff in Hin. destruct Hin as [Hin|[<-|[]]].
        -- apply Hhw. rewrite Heq. assumption.
        -- apply Hfree. left. left. assumption.
      * subst newWalls. apply Hhw. rewrite Heq. assumption.
    + destruct (spawnsWall (difficulty s) (score s + points eaten)).
      * destruct Hw as [wall [-> Hfree]]. apply occupied_false in Hfree.
        unfold taken in Hfree. rewrite !in_app_iff in Hfree.
        apply in_app_iff in Hin. destruct Hin as [Hin|[<-|[]]].
        -- exact (Hws w Hin Hin').
        -- apply Hfree. left. right. assumption.
      * subst newWalls. exact (Hws w Hin Hin').
  - intros Hd. destruct (Hcalm Hd) as [Hwnd Hfw].
    destruct (spawnsWall (difficulty s) (score s + points eaten)).
    + destruct Hw as [wall [-> Hfree]]. apply occupied_false in Hfree.
      unfold taken in Hfree. rewrite !in_app_iff in Hfree. split.
      * apply NoDup_app; [assumption|repeat constructor; auto|].
        intros a Ha [<-|[]]. tauto.
      * intros f Hin Hin'. apply in_app_iff in Hin'.
        destruct Hin' as [Hin'|[Heq|[]]].
        -- exact (proj2 (Hfood f Hin) Hd Hin').
        -- apply Hfree. right. left. rewrite Heq. apply in_map. assumption.
    + subst newWalls. split; [assumption|].
      intros f Hin. exact (proj2 (Hfood f Hin) Hd).
Qed.

Lemma interior_inGrid p : interior p -> inGrid p.
Proof. unfold interior, inGrid, GRID_SIZE. lia. Qed.

Lemma inGrid_off_border p : inGrid p -> onBorder p = false -> interior p.
Proof.
  intros Hg Hb. unfold interior, inGrid, GRID_SIZE in *.
  assert (Hn : ~ (x p = 0 \/ x p = 20 - 1 \/ y p = 0 \/ y p = 20 - 1)).
  { intros H. apply onBorder_true in H. congruence. }
  lia.
Qed.

Lemma tick_Fenced fuel s tape c s' c' :
  Fenced s -> tick fuel s tape c = Some (s', c') -> Fenced s'.
Proof.
  intros HF Ht.
  case_eq (snake s); [intros Hs | intros h body Hs].
  { unfold tick, moveSnake, bind in Ht. rewrite Hs in Ht.
    inversion Ht; subst. intros Hd. simpl in *.
    split; [apply HF; assumption | constructor]. }
  destruct (hits s (newHead s h)) eqn:Hh.
  { rewrite (tick_hit fuel s tape c h body Hs Hh) in Ht.
    inversion Ht; subst. exact HF. }
  destruct (hits_false_parts _ _ Hh) as [_ [_ Hborder]].
  assert (Hhead : difficulty s = extreme -> interior (newHead s h)).
  { intros Hd. destruct (HF Hd) as [_ Hin].
    apply inGrid_off_border; [|auto].
    apply moveHead_inGrid. apply interior_inGrid.
    rewrite Forall_forall in Hin. apply Hin. rewrite Hs. left. reflexivity. }
  destruct (foodUnder s (newHead s h)) as [i|] eqn:Hf.
  - destruct (findIndex_Some _ _ _ Hf) as [f [Hn _]].
    pose proof (tick_eat_inv fuel s tape c h body i f s' c' Hs Hh Hf Hn Ht) as H.
    cbv zeta in H.
    destruct H as [_ [Hw [Hsn [_ [_ [_ [_ [_ [_ [Hd _]]]]]]]]]].
    intros Hext. rewrite Hd in Hext. destruct (HF Hext) as [Hwalls Hin].
    unfold spawnsWall in Hw. rewrite Hext in Hw. simpl in Hw.
    rewrite Hw, Hsn. split; [assumption|]. constructor; auto.
  - rewrite (tick_move fuel s tape c h body Hs Hh Hf) in Ht.
    inversion Ht; subst. intros Hext. simpl in *.
    destruct (HF Hext) as [Hwalls Hin]. split; [assumption|].
    constructor; [auto | apply removelast_Forall; assumption].
Qed.

Lemma tick_Tally fuel s tape c s' c' :
  Inv s -> Tally s -> tick fuel s tape c = Some (s', c') -> Tally s'.
Proof.
  intros [_ [Hne [Hpriced _]]] HT Ht.
  pose proof HT as [Hsc [Hlo [Hhi Hwalls]]].
  case_eq (snake s); [intros Hs; congruence | intros h body Hs].
  destruct (hits s (newHead s h)) eqn:Hh.
  { rewrite (tick_hit fuel s tape c h body Hs Hh) in Ht.
    inversion Ht; subst. exact HT. }
  destruct (foodUnder s (newHead s h)) as [i|] eqn:Hf.
  - destruct (findIndex_Some _ _ _ Hf) as [f [Hn _]].
    pose proof (tick_eat_inv fuel s tape c h body i f s' c' Hs Hh Hf Hn Ht) as H.
    cbv zeta in H.
    destruct H as [_ [Hw [Hsn [Hnew [Hhigh [_ [_ [_ [_ [Hd _]]]]]]]]]].
    assert (Hp : 1 <= points f <= 3).
    { apply wellPriced_pos. rewrite Forall_forall in Hpriced.
      apply Hpriced. eapply nth_error_In. eassumption. }
    unfold Tally. rewrite Hsn, Hnew, Hhigh, Hd. simpl List.length.
    split; [lia|]. split; [lia|]. split; [lia|].
    intros Hcalm. specialize (Hwalls Hcalm). unfold WALL_SPAWN_SCORE in *.
    destruct (spawnsWall (difficulty s) (score s + points f)) eqn:Esp.
    + destruct Hw as [wall [-> _]]. rewrite length_app. simpl.
      apply spawnsWall_true in Esp. destruct Esp as [_ [k [Hk Hmul]]].
      unfold WALL_SPAWN_SCORE in Hmul. rewrite Hmul.
      rewrite (Z.mul_comm 10 k), Z.div_mul by lia.
      pose proof (Z.div_mod (score s) 10 ltac:(lia)) as Hdm.
      pose proof (Z.mod_pos_bound (score s) 10 ltac:(lia)) as Hmod.
      lia.
    + rewrite Hw.
      pose proof (Z.div_le_mono (score s) (score s + points f) 10
                    ltac:(lia) ltac:(lia)).
      lia.
  - rewrite (tick_move fuel s tape c h body Hs Hh Hf) in Ht.
    inversion Ht; subst. unfold Tally. simpl.
    rewrite Hs, removelast_cons_length. rewrite Hs in Hlo, Hhi.
    simpl List.length in *. auto.
Qed.

Lemma mount_facts fuel tape f0 c0 :
  mount fuel tape 0%nat = Some (f0, c0) ->
  wellPriced f0 /\ cell f0 <> mkPoint 10 10.
Proof.
  intros H. unfold mount in H. apply createFood_inv in H.
  destruct H as [Hfree [Hp _]]. split; [assumption|].
  apply occupied_false in Hfree. unfold taken, INITIAL_SNAKE in Hfree.
  simpl in Hfree. intros Heq. apply Hfree. left. congruence.
Qed.

Lemma restarted_sound f0 d high color :
  cell f0 <> mkPoint 10 10 -> 0 <= high ->
  Board (restarted f0 d high color) /\ Tally (restarted f0 d high color) /\
  Fenced (restarted f0 d high color).
Proof.
  intros Hf Hhigh. unfold Board, Tally, Fenced, restarted, initialState. simpl.
  split; [|split].
  - split; [repeat constructor; auto|]. split; [repeat constructor; auto|].
    split; [repeat constructor; unfold GRID_SIZE; simpl; lia|].
    split; [intros f [<-|[]] [Heq|[]]; congruence|]. split.
    + intros w Hw [Heq|[]]. subst w. unfold resetWalls in Hw.
      destruct (Difficulty_eqb d extreme); [|contradiction].
      apply border_walls_iff in Hw. destruct Hw as [_ Hb]. discriminate Hb.
    + intros Hd. unfold resetWalls.
      destruct (Difficulty_eqb d extreme) eqn:E;
        [apply Difficulty_eqb_eq in E; congruence|].
      split; [constructor | intros f _ []].
  - split; [lia|]. split; [lia|]. split; [lia|].
    intros Hd. unfold resetWalls.
    destruct (Difficulty_eqb d extreme) eqn:E;
      [apply Difficulty_eqb_eq in E; congruence|].
    simpl. reflexivity.
  - intros ->. simpl. split; [reflexivity|].
    repeat constructor; unfold GRID_SIZE; simpl; lia.
Qed.

Lemma step_sound f0 e s tape c s' c' :
  wellPriced f0 -> cell f0 <> mkPoint 10 10 ->
  Inv s /\ Board s /\ Tally s /\ Fenced s ->
  step f0 e s tape c = Some (s', c') ->
  Inv s' /\ Board s' /\ Tally s' /\ Fenced s'.
Proof.
  intros Hp Hf [HI [HB [HT HF]]] Hstep.
  split; [eapply step_Inv; eassumption|].
  destruct e; simpl in Hstep.
  - destruct (isGameOver s || isPaused s).
    + inversion Hstep; subst. auto.
    + split; [eapply tick_Board; eassumption|].
      split; [eapply tick_Tally; eassumption | eapply tick_Fenced; eassumption].
  - inversion Hstep; subst; clear Hstep. unfold handleKeyDown.
    destruct (isGameOver s); [simpl; auto|].
    destruct (keyDirections key); [|simpl; auto].
    destruct (negb _); simpl; auto.
  - inversion Hstep; subst; clear Hstep. unfold handleDirectionClick.
    destruct (isGameOver s); [simpl; auto|].
    destruct (negb _); simpl; auto.
  - inversion Hstep; subst. simpl. auto.
  - inversion Hstep; subst. simpl. apply restarted_sound; [assumption|].
    destruct HT as [? _]. lia.
  - inversion Hstep; subst. simpl. apply restarted_sound; [assumption|].
    destruct HT as [? _]. lia.
  - inversion Hstep; subst. simpl. auto.
Qed.

Lemma run_sound f0 tape :
  wellPriced f0 -> cell f0 <> mkPoint 10 10 ->
  forall events s c s' c',
    Inv s /\ Board s /\ Tally s /\ Fenced s ->
    run f0 events s tape c = Some (s', c') ->
    Inv s' /\ Board s' /\ Tally s' /\ Fenced s'.
Proof.
  intros Hp Hf. induction events as [|e events IH]; intros s c s' c' H Hrun.
  - inversion Hrun; subst. assumption.
  - simpl in Hrun. unfold bind in Hrun.
    destruct (step f0 e s tape c) as [[s1 c1]|] eqn:E; [|discriminate].
    eapply IH; [|eassumption]. eapply step_sound; eassumption.
Qed.

Lemma reachable_sound tape s c :
  reachable tape s c -> Board s /\ Tally s /\ Fenced s.
Proof.
  intros [fuel [f0 [c0 [events [Hmount Hrun]]]]].
  destruct (mount_facts _ _ _ _ Hmount) as [Hp Hf].
  assert (H0 : Inv (initialState f0) /\ Board (initialState f0) /\
               Tally (initialState f0) /\ Fenced (initialState f0)).
  { split; [apply Inv_initialState; assumption|].
    change (initialState f0) with (restarted f0 normal 0 green).
    apply restarted_sound; [assumption | lia]. }
  destruct (run_sound f0 tape Hp Hf events _ _ _ _ H0 Hrun) as [_ H]. exact H.
Qed.

(** X9. In every state of a session nothing overlaps: the segments of
    the snake lie on pairwise distinct cells of the grid, the foods lie on
    pairwise distinct cells, and no food and no wall lies under the snake;
    outside extreme mode the walls are pairwise distinct and no food lies
    on a wall. *)
Theorem session_board_is_consistent tape s c :
  reachable tape s c ->
  NoDup (snake s) /\
  NoDup (map cell (foods s)) /\
  Forall inGrid (snake s) /\
  (forall f, In f (foods s) -> ~ In (cell f) (snake s)) /\
  (forall w, In w (walls s) -> ~ In w (snake s)) /\
  (difficulty s <> extreme ->
   NoDup (walls s) /\ forall f, In f (foods s) -> ~ In (cell f) (walls s)).
Proof. intros H. apply reachable_sound in H. destruct H as [H _]. exact H. Qed.

Lemma session_board_witness : NoDup (snake beforeFirstApple).
Proof.
  exact (proj1 (session_board_is_consistent exampleTape beforeFirstApple 3
                  exampleEvents_reach)).
Defined.

(** X10. In every state of a session the score is between 0 and the high
    score, and between [length - 1] and [3 * (length - 1)] for the length
    of the snake (each food eaten adds one segment and 1 to 3 points);
    outside extreme mode there are at most [floor(score / 10)] walls, so
    none before the score reaches 10. *)
Theorem session_score_length_walls tape s c :
  reachable tape s c ->
  0 <= score s <= highScore s /\
  Z.of_nat (List.length (snake s)) - 1 <= score s /\
  score s <= 3 * (Z.of_nat (List.length (snake s)) - 1) /\
  (difficulty s <> extreme ->
   Z.of_nat (List.length (walls s)) <= score s / WALL_SPAWN_SCORE) /\
  (difficulty s <> extreme -> score s < WALL_SPAWN_SCORE -> walls s = []).
Proof.
  intros H. apply reachable_sound in H. destruct H as [_ [[H1 [H2 [H3 H4]]] _]].
  do 4 (split; [assumption|]).
  intros Hd Hlt. specialize (H4 Hd). unfold WALL_SPAWN_SCORE in *.
  rewrite Z.div_small in H4 by lia.
  destruct (walls s); [reflexivity | simpl in H4; lia].
Qed.

Lemma session_score_witness :
  0 <= score beforeFirstApple <= highScore beforeFirstApple.
Proof.
  exact (proj1 (session_score_length_walls exampleTape beforeFirstApple 3
                  exampleEvents_reach)).
Defined.

Lemma extremeStart_session :
  session exampleTape (mkFood (mkPoint 0 0) apple 1) extremeStart 3.
Proof.
  exists 1%nat, 3%nat, [DifficultyChange extreme].
  split; vm_compute; reflexivity.
Qed.

Lemma session_reachable tape f0 s c : session tape f0 s c -> reachable tape s c.
Proof.
  intros [fuel [c0 [events H]]]. exists fuel, f0, c0, events. exact H.
Qed.

(** X11. In every extreme-mode state of a session the walls are exactly
    the border walls (no wall is ever spawned) and every segment of the
    snake lies strictly inside the border. *)
Theorem extreme_mode_is_fenced tape s c :
  reachable tape s c ->
  difficulty s = extreme ->
  walls s = createBorderWalls /\ Forall interior (snake s).
Proof.
  intros H Hd. apply reachable_sound in H. destruct H as [_ [_ H]]. exact (H Hd).
Qed.

Lemma extreme_mode_witness : walls extremeStart = createBorderWalls.
Proof.
  exact (proj1 (extreme_mode_is_fenced exampleTape extremeStart 3
                  (session_reachable _ _ _ _ extremeStart_session) eq_refl)).
Defined.

Lemma tick_difficulty fuel s tape c s' c' :
  tick fuel s tape c = Some (s', c') -> difficulty s' = difficulty s.
Proof.
  intros Ht. case_eq (snake s); [intros Hs | intros h body Hs].
  { unfold tick, moveSnake, bind in Ht. rewrite Hs in Ht.
    inversion Ht; subst. reflexivity. }
  destruct (hits s (newHead s h)) eqn:Hh.
  { rewrite (tick_hit fuel s tape c h body Hs Hh) in Ht.
    inversion Ht; subst. reflexivity. }
  destruct (foodUnder s (newHead s h)) as [i|] eqn:Hf.
  - destruct (findIndex_Some _ _ _ Hf) as [f [Hn _]].
    pose proof (tick_eat_inv fuel s tape c h body i f s' c' Hs Hh Hf Hn Ht) as H.
    cbv zeta in H. tauto.
  - rewrite (tick_move fuel s tape c h body Hs Hh Hf) in Ht.
    inversion Ht; subst. reflexivity.
Qed.

Lemma tick_border_food f0 fuel s tape c s' c' :
  onBorder (cell f0) = true ->
  (difficulty s = extreme -> foods s = [f0] /\ score s = 0) ->
  tick fuel s tape c = Some (s', c') ->
  difficulty s' = extreme -> foods s' = [f0] /\ score s' = 0.
Proof.
  intros Hb HP Ht Hext. rewrite (tick_difficulty _ _ _ _ _ _ Ht) in Hext.
  destruct (HP Hext) as [Hfoods Hscore].
  case_eq (snake s); [intros Hs | intros h body Hs].
  { unfold tick, moveSnake, bind in Ht. rewrite Hs in Ht.
    inversion Ht; subst. auto. }
  destruct (hits s (newHead s h)) eqn:Hh.
  { rewrite (tick_hit fuel s tape c h body Hs Hh) in Ht.
    inversion Ht; subst. auto. }
  destruct (hits_false_parts _ _ Hh) as [_ [_ Hborder]].
  assert (Hf : foodUnder s (newHead s h) = None).
  { apply foodUnder_None. rewrite Hfoods. intros f [<-|[]] Heq.
    rewrite Heq, (Hborder Hext) in Hb. discriminate. }
  rewrite (tick_move fuel s tape c h body Hs Hh Hf) in Ht.
  inversion Ht; subst. auto.
Qed.

Lemma run_border_food f0 tape :
  onBorder (cell f0) = true ->
  forall events s c s' c',
    (difficulty s = extreme -> foods s = [f0] /\ score s = 0) ->
    run f0 events s tape c = Some (s', c') ->
    difficulty s' = extreme -> foods s' = [f0] /\ score s' = 0.
Proof.
  intros Hb. induction events as [|e events IH]; intros s c s' c' HP Hrun.
  - inversion Hrun; subst. assumption.
  - simpl in Hrun. unfold bind in Hrun.
    destruct (step f0 e s tape c) as [[s1 c1]|] eqn:E; [|discriminate].
    eapply IH; [|eassumption]. clear IH Hrun.
    destruct e; simpl in E.
    + destruct (isGameOver s || isPaused s).
      * inversion E; subst. assumption.
      * eapply tick_border_food; eassumption.
    + inversion E; subst; clear E. unfold handleKeyDown.
      destruct (isGameOver s); [simpl; auto|].
      destruct (keyDirections key); [|simpl; auto].
      destruct (negb _); simpl; auto.
    + inversion E; subst; clear E. unfold handleDirectionClick.
      destruct (isGameOver s); [simpl; auto|].
      destruct (negb _); simpl; auto.
    + inversion E; subst. simpl. auto.
    + inversion E; subst. simpl. auto.
    + inversion E; subst. simpl. auto.
    + inversion E; subst. simpl. auto.
Qed.

(** X12. The first food of extreme mode can be out of reach.  The food
    drawn when the module loads is put back by every reset and difficulty
    change, border walls or not: when it lies on the border, in every
    extreme-mode state of the session the foods are that one food and the
    score is 0, since the snake dies on the border before it can eat. *)
Theorem extreme_mode_border_food_is_never_eaten tape f0 s c :
  session tape f0 s c ->
  onBorder (cell f0) = true ->
  difficulty s = extreme ->
  foods s = [f0] /\ score s = 0.
Proof.
  intros [fuel [c0 [events [_ Hrun]]]] Hb.
  assert (H0 : difficulty (initialState f0) = extreme ->
               foods (initialState f0) = [f0] /\ score (initialState f0) = 0)
    by (intros _; split; reflexivity).
  exact (run_border_food f0 tape Hb events _ _ _ _ H0 Hrun).
Qed.

Lemma extreme_mode_border_food_witness :
  foods extremeStart = [mkFood (mkPoint 0 0) apple 1] /\ score extremeStart = 0.
Proof.
  exact (extreme_mode_border_food_is_never_eaten exampleTape _ extremeStart 3
           extremeStart_session eq_refl eq_refl).
Defined.

End SnakeMore.

(* ================================================================== *)
(** * Further properties of the Flappy Bird engine *)

Module FlappyMore.

Import Flappy FlappySpec.
Local Open Scope Q_scope.

(** ** The parts of a frame *)

Lemma Qlt_bool_true (a b : Q) : Qlt_bool a b = true <-> a < b.
Proof.
  unfold Qlt_bool. rewrite negb_true_iff. split.
  - intros H. apply Qnot_le_lt. intros Hle.
    apply Qle_bool_iff in Hle. congruence.
  - intros H. destruct (Qle_bool b a) eqn:E; [|reflexivity].
    apply Qle_bool_iff in E. lra.
Qed.

Lemma Qlt_bool_false (a b : Q) : Qlt_bool a b = false <-> b <= a.
Proof. unfold Qlt_bool. rewrite negb_false_iff. apply Qle_bool_iff. Qed.

Lemma updateWith_parts settings now random w :
  updateWith settings now random w =
  let prev := state w in
  let newBird := nextBird settings (bird prev) in
  let newPipes := framePipes settings now random w in
  let lastPipe' := if spawns settings now w then now else lastPipeRef w in
  if outOfBounds newBird
  then mkWorld (mkState newBird newPipes (score prev)
                        (Z.max (score prev) (highScore prev))
                        (isPlaying prev) true (difficulty prev))
               lastPipe'
  else
    let '(scanned, newScore, hit) :=
      scanPipes settings (birdBoxOf newBird) newPipes (score prev) in
    if hit
    then mkWorld (mkState newBird scanned newScore
                          (Z.max (score prev) (highScore prev))
                          (isPlaying prev) true (difficulty prev))
                 lastPipe'
    else mkWorld (mkState newBird scanned newScore (highScore prev)
                          (isPlaying prev) (isGameOver prev) (difficulty prev))
                 lastPipe'.
Proof.
  unfold updateWith, framePipes, spawns, movedPipes, outOfBounds, nextBird.
  cbv zeta. destruct (pipeInterval settings <? now - lastPipeRef w)%Z; reflexivity.
Qed.

Lemma frame_runs now random w :
  isPlaying (state w) = true -> isGameOver (state w) = false ->
  step (Frame now random) w =
  updateWith (DIFFICULTY_SETTINGS (difficulty (state w))) now random w.
Proof. intros Hp Hg. unfold step, update. rewrite Hp, Hg. reflexivity. Qed.

(** ** The collision loop *)

Lemma scanPipes_hit settings box pipes :
  forall score,
    snd (scanPipes settings box pipes score) = existsb (hitsPipe settings box) pipes.
Proof.
  induction pipes as [|pipe rest IH]; intros score; simpl; [reflexivity|].
  destruct (hitsPipe settings box pipe); [reflexivity|]. simpl.
  specialize (IH (if negb (passed pipe) && Qlt_bool (x pipe + PIPE_WIDTH) (CANVAS_WIDTH / 4)
                  then (score + 1)%Z else score)).
  destruct (scanPipes settings box rest _) as [[rest' score''] hit].
  exact IH.
Qed.

Lemma passedCount_cons pipe rest :
  passedCount (pipe :: rest) =
  ((if passed pipe then 1 else 0) + passedCount rest)%Z.
Proof.
  unfold passedCount. cbn [filter].
  destruct (passed pipe); cbn [List.length]; lia.
Qed.

Lemma scanPipes_cons settings box pipe rest score :
  scanPipes settings box (pipe :: rest) score =
  if hitsPipe settings box pipe then (pipe :: rest, score, true)
  else
    let scores := negb (passed pipe) && behind pipe in
    let '(rest', score'', hit) :=
      scanPipes settings box rest (if scores then (score + 1)%Z else score) in
    ((if scores then mkPipe (x pipe) (topHeight pipe) true else pipe) :: rest',
     score'', hit).
Proof. reflexivity. Qed.

Lemma scanPipes_marks settings box pipes :
  forall score pipes' score' hit,
    scanPipes settings box pipes score = (pipes', score', hit) ->
    score' = (score + (passedCount pipes' - passedCount pipes))%Z /\
    (score <= score')%Z /\
    Forall2 (fun p p' =>
               x p' = x p /\ topHeight p' = topHeight p /\
               (passed p = true -> passed p' = true) /\
               (passed p = false -> passed p' = true -> behind p = true))
            pipes pipes' /\
    hit = existsb (hitsPipe settings box) pipes /\
    (forallb passed pipes = true -> pipes' = pipes /\ score' = score).
Proof.
  induction pipes as [|pipe rest IH]; intros score pipes' score' hit H.
  - simpl in H. inversion H; subst. unfold passedCount. simpl.
    split; [lia|]. split; [lia|]. split; [constructor|]. auto.
  - assert (Hhit : hit = existsb (hitsPipe settings box) (pipe :: rest)).
    { pose proof (scanPipes_hit settings box (pipe :: rest) score) as Hhit.
      rewrite H in Hhit. exact Hhit. }
    revert Hhit. generalize (existsb (hitsPipe settings box) (pipe :: rest)).
    intros found Hhit.
    rewrite scanPipes_cons in H. cbv zeta in H.
    destruct (hitsPipe settings box pipe) eqn:Ehit.
    + inversion H; subst. split; [lia|]. split; [lia|]. split.
      * clear. induction (pipe :: rest) as [|q l IHl];
          constructor; [repeat split; congruence | assumption].
      * split; [first [assumption | reflexivity]|]. intros _. auto.
    + destruct (scanPipes settings box rest _) as [[rest' score''] hit'] eqn:E.
      inversion H; subst; clear H.
      destruct (IH _ _ _ _ E) as [Hs [Hle [Hall [_ Hsame]]]]. clear IH.
      rewrite !passedCount_cons.
      destruct (passed pipe) eqn:Ep; cbn [negb andb] in *.
      * rewrite Ep. split; [lia|]. split; [lia|]. split.
        { constructor; [|assumption]. repeat split; congruence. }
        split; [first [assumption | reflexivity]|]. cbn [forallb]. rewrite Ep. cbn [andb].
        intros Hrest. destruct (Hsame Hrest) as [-> ->]. auto.
      * destruct (behind pipe) eqn:Eb; cbn [passed].
        -- split; [lia|]. split; [lia|]. split.
           { constructor; [|assumption]. cbn [x topHeight passed].
             repeat split; congruence. }
           split; [first [assumption | reflexivity]|]. cbn [forallb]. rewrite Ep. discriminate.
        -- rewrite Ep. split; [lia|]. split; [lia|]. split.
           { constructor; [|assumption]. repeat split; congruence. }
           split; [first [assumption | reflexivity]|]. cbn [forallb]. rewrite Ep. discriminate.
Qed.

(** X13. The collision loop of a frame scores by marking: the score grows
    by exactly the number of pipes the loop marks passed, a pipe is marked
    only if it was not yet passed and its trailing edge is left of the
    middle of the bird, a pipe already passed stays passed and adds
    nothing, and positions do not change.  The loop reports a hit exactly
    when the bird hits one of the pipes. *)
Theorem scanPipes_scores_by_marking settings box pipes score pipes' score' hit :
  scanPipes settings box pipes score = (pipes', score', hit) ->
  score' = (score + (passedCount pipes' - passedCount pipes))%Z /\
  (score <= score')%Z /\
  Forall2 (fun p p' =>
             x p' = x p /\ topHeight p' = topHeight p /\
             (passed p = true -> passed p' = true) /\
             (passed p = false -> passed p' = true -> behind p = true))
          pipes pipes' /\
  hit = existsb (hitsPipe settings box) pipes /\
  (forallb passed pipes = true -> pipes' = pipes /\ score' = score).
Proof. apply scanPipes_marks. Qed.

Lemma scanPipes_scores_witness :
  exists pipes' hit,
    scanPipes (DIFFICULTY_SETTINGS normal) (birdBoxOf (mkBird 200 0 0))
      [mkPipe 36 100 false; mkPipe 300 100 false] 5 = (pipes', 6%Z, hit).
Proof.
  destruct (scanPipes (DIFFICULTY_SETTINGS normal) (birdBoxOf (mkBird 200 0 0))
              [mkPipe 36 100 false; mkPipe 300 100 false] 5)
    as [[pipes' score'] hit] eqn:E.
  destruct (scanPipes_scores_by_marking _ _ _ _ _ _ _ E) as [Hs _].
  exists pipes', hit. rewrite Hs.
  vm_compute in E. inversion E; subst. reflexivity.
Defined.

(** ** The outcome of a frame *)

Lemma frame_result now random w :
  isPlaying (state w) = true -> isGameOver (state w) = false ->
  let settings := DIFFICULTY_SETTINGS (difficulty (state w)) in
  let newBird := nextBird settings (bird (state w)) in
  let newPipes := framePipes settings now random w in
  let w' := step (Frame now random) w in
  bird (state w') = newBird /\
  isGameOver (state w') =
    (outOfBounds newBird
     || existsb (hitsPipe settings (birdBoxOf newBird)) newPipes) /\
  highScore (state w') =
    (if isGameOver (state w')
     then Z.max (score (state w)) (highScore (state w))
     else highScore (state w)) /\
  (outOfBounds newBird = true ->
   score (state w') = score (state w) /\ pipes (state w') = newPipes) /\
  (score (state w) <= score (state w'))%Z /\
  Forall2 (fun p p' =>
             x p' = x p /\ topHeight p' = topHeight p /\
             (passed p = true -> passed p' = true) /\
             (passed p = false -> passed p' = true -> behind p = true))
          newPipes (pipes (state w')) /\
  isPlaying (state w') = true /\
  difficulty (state w') = difficulty (state w) /\
  lastPipeRef w' = (if spawns settings now w then now else lastPipeRef w).
Proof.
  intros Hp Hg settings newBird newPipes w'. subst w'.
  rewrite (frame_runs now random w Hp Hg), updateWith_parts. cbv zeta.
  fold settings. fold newBird. fold newPipes.
  assert (Hrefl : forall l : list Pipe,
             Forall2 (fun p p' =>
                        x p' = x p /\ topHeight p' = topHeight p /\
                        (passed p = true -> passed p' = true) /\
                        (passed p = false -> passed p' = true -> behind p = true))
                     l l).
  { induction l; constructor; [repeat split; congruence | assumption]. }
  destruct (outOfBounds newBird) eqn:Eb.
  - cbn [state bird isGameOver highScore score pipes isPlaying difficulty
         lastPipeRef orb].
    repeat split; auto; lia.
  - destruct (scanPipes settings (birdBoxOf newBird) newPipes (score (state w)))
      as [[scanned newScore] hit] eqn:E.
    destruct (scanPipes_marks _ _ _ _ _ _ _ E) as [_ [Hle [Hall [Hhit _]]]].
    rewrite <- Hhit. cbn [orb].
    destruct hit;
      cbn [state bird isGameOver highScore score pipes isPlaying difficulty
           lastPipeRef];
      rewrite ?Hg;
      repeat split; auto; try discriminate; congruence.
Qed.

(** X14. A frame of a game under way ends the game exactly when the new
    bird box leaves the canvas (bottom below [CANVAS_HEIGHT] or top above
    0) or meets a pipe of the frame; the out-of-bounds test comes first
    and then leaves score and pipes untouched, whatever the pipes.  When
    the game ends the high score becomes the maximum of the score before
    the frame and the old high score; otherwise it is unchanged.  The loop
    never moves a pipe and never unmarks one. *)
Theorem frame_outcome now random w :
  isPlaying (state w) = true -> isGameOver (state w) = false ->
  let settings := DIFFICULTY_SETTINGS (difficulty (state w)) in
  let newBird := nextBird settings (bird (state w)) in
  let newPipes := framePipes settings now random w in
  let w' := step (Frame now random) w in
  bird (state w') = newBird /\
  isGameOver (state w') =
    (outOfBounds newBird
     || existsb (hitsPipe settings (birdBoxOf newBird)) newPipes) /\
  highScore (state w') =
    (if isGameOver (state w')
     then Z.max (score (state w)) (highScore (state w))
     else highScore (state w)) /\
  (outOfBounds newBird = true ->
   score (state w') = score (state w) /\ pipes (state w') = newPipes) /\
  (score (state w) <= score (state w'))%Z /\
  Forall2 (fun p p' =>
             x p' = x p /\ topHeight p' = topHeight p /\
             (passed p = true -> passed p' = true) /\
             (passed p = false -> passed p' = true -> behind p = true))
          newPipes (pipes (state w')) /\
  isPlaying (state w') = true /\
  difficulty (state w') = difficulty (state w) /\
  lastPipeRef w' = (if spawns settings now w then now else lastPipeRef w).
Proof. apply frame_result. Qed.

Lemma frame_outcome_witness :
  isGameOver (state (step (Frame 2000 (1 # 2)) midFlight)) = false /\
  highScore (state (step (Frame 2000 (1 # 2)) midFlight)) = 5%Z.
Proof.
  destruct (frame_outcome 2000 (1 # 2) midFlight eq_refl eq_refl)
    as [_ [Hover [Hhigh _]]].
  split.
  - rewrite Hover. vm_compute. reflexivity.
  - rewrite Hhigh, Hover. vm_compute. reflexivity.
Defined.

(** ** Frames outside a game *)

Lemma frame_idle now random w :
  isPlaying (state w) = false \/ isGameOver (state w) = true ->
  step (Frame now random) w = w.
Proof.
  intros [H|H]; unfold step, update; rewrite H; [reflexivity|].
  rewrite orb_true_r. reflexivity.
Qed.

Lemma frames_idle events :
  forall w,
    isPlaying (state w) = false \/ isGameOver (state w) = true ->
    forallb isFrame events = true ->
    run events w = w.
Proof.
  induction events as [|e events IH]; intros w Hidle Hall; [reflexivity|].
  simpl in Hall. apply andb_true_iff in Hall. destruct Hall as [He Hall].
  destruct e; try discriminate. simpl run.
  change (update (state w) now random w) with (step (Frame now random) w).
  rewrite (frame_idle now random w Hidle). apply IH; assumption.
Qed.

(** X15. Frames do nothing outside a game: before the first start and
    after a game is over, any number of frames leaves the state and the
    spawn timer exactly as they were (game over is final for frames). *)
Theorem frames_do_nothing_unless_playing events :
  forall w,
    isPlaying (state w) = false \/ isGameOver (state w) = true ->
    forallb isFrame events = true ->
    run events w = w.
Proof. apply frames_idle. Qed.

Lemma frames_idle_witness :
  run [Frame 16 (1 # 2); Frame 32 (1 # 3)] mounted = mounted.
Proof.
  apply frames_do_nothing_unless_playing; [left|]; reflexivity.
Defined.

(** ** Free fall *)



(** ** Sessions *)

Lemma run_invariant (P : World -> Prop) :
  (forall e w, P w -> P (step e w)) ->
  forall events w, P w -> P (run events w).
Proof.
  intros Hstep. induction events as [|e events IH]; intros w H; simpl; auto.
Qed.

Lemma clamp_bounds (v : Q) :
  - Math_PI / 4 <= Qmin (Math_PI / 2) (Qmax (- Math_PI / 4) v) /\
  Qmin (Math_PI / 2) (Qmax (- Math_PI / 4) v) <= Math_PI / 2.
Proof.
  split.
  - apply Q.min_glb; [vm_compute; discriminate | apply Q.le_max_l].
  - apply Q.le_min_l.
Qed.

(** X17. In every world of a session the rotation of the bird lies
    between [-PI/4] and [PI/2]. *)
Theorem rotation_stays_clamped w :
  reachable w ->
  - Math_PI / 4 <= rotation (bird (state w)) /\
  rotation (bird (state w)) <= Math_PI / 2.
Proof.
  intros [events <-].
  apply (run_invariant (fun w => - Math_PI / 4 <= rotation (bird (state w)) /\
                                 rotation (bird (state w)) <= Math_PI / 2)).
  - intros e w [Hlo Hhi].
    assert (H0 : - Math_PI / 4 <= 0 /\ 0 <= Math_PI / 2)
      by (split; vm_compute; discriminate).
    destruct e; cbn [step].
    + unfold update. destruct (negb (isPlaying (state w)) || isGameOver (state w));
        [auto|].
      rewrite updateWith_bird. cbn [rotation]. apply clamp_bounds.
    + unfold handleClick.
      destruct (isGameOver (state w)); [exact H0|].
      destruct (negb (isPlaying (state w))); [exact H0 | auto].
    + unfold handleKeyDown. destruct (String.eqb code "Space"); [exact H0 | auto].
    + exact H0.
    + auto.
  - split; vm_compute; discriminate.
Qed.

Lemma rotation_witness :
  rotation (bird (state afterFirstFrame)) <= Math_PI / 2.
Proof.
  apply (rotation_stays_clamped afterFirstFrame).
  exists [Click 0; Frame 16 (1 # 2)]. reflexivity.
Defined.

Lemma behind_true (p : Pipe) :
  behind p = true <-> x p + PIPE_WIDTH < CANVAS_WIDTH / 4.
Proof. unfold behind. apply Qlt_bool_true. Qed.

Lemma movedPipes_In (pipes : list Pipe) (p' : Pipe) :
  In p' (movedPipes pipes) ->
  0 < x p' + PIPE_WIDTH /\
  exists p, In p pipes /\ x p' = x p - PIPE_SPEED /\
            topHeight p' = topHeight p /\ passed p' = passed p.
Proof.
  unfold movedPipes. intros H. apply filter_In in H. destruct H as [Hin Hon].
  apply Qlt_bool_true in Hon. split; [assumption|].
  apply in_map_iff in Hin. destruct Hin as [p [<- Hin]].
  exists p. auto.
Qed.

Lemma framePipes_kept settings now random w :
  Forall (fun p => - PIPE_WIDTH < x p /\ x p <= CANVAS_WIDTH /\
                   (passed p = true -> behind p = true))
         (pipes (state w)) ->
  Forall (fun p => - PIPE_WIDTH < x p /\ x p <= CANVAS_WIDTH /\
                   (passed p = true -> behind p = true))
         (framePipes settings now random w).
Proof.
  intros H.
  assert (Hmoved : Forall (fun p => - PIPE_WIDTH < x p /\ x p <= CANVAS_WIDTH /\
                                    (passed p = true -> behind p = true))
                          (movedPipes (pipes (state w)))).
  { rewrite Forall_forall in *. intros p' Hin.
    destruct (movedPipes_In _ _ Hin) as [Hon [p [Hp [Hx [_ Hpass]]]]].
    destruct (H p Hp) as [Hlo [Hhi Hb]].
    unfold PIPE_WIDTH, CANVAS_WIDTH, PIPE_SPEED in *.
    split; [lra|]. split; [rewrite Hx; lra|].
    rewrite Hpass. intros Ht. specialize (Hb Ht).
    apply behind_true in Hb. apply behind_true.
    unfold PIPE_WIDTH, CANVAS_WIDTH in *. rewrite Hx. lra. }
  unfold framePipes. destruct (spawns settings now w); [|assumption].
  apply Forall_app. split; [assumption|].
  constructor; [|constructor]. unfold createPipe. cbn [x passed].
  split; [vm_compute; reflexivity|]. split; [vm_compute; discriminate|].
  discriminate.
Qed.

Lemma scanned_kept (pipes pipes' : list Pipe) :
  Forall2 (fun p p' =>
             x p' = x p /\ topHeight p' = topHeight p /\
             (passed p = true -> passed p' = true) /\
             (passed p = false -> passed p' = true -> behind p = true))
          pipes pipes' ->
  Forall (fun p => - PIPE_WIDTH < x p /\ x p <= CANVAS_WIDTH /\
                   (passed p = true -> behind p = true)) pipes ->
  Forall (fun p => - PIPE_WIDTH < x p /\ x p <= CANVAS_WIDTH /\
                   (passed p = true -> behind p = true)) pipes'.
Proof.
  induction 1 as [|p p' l l' [Hx [_ [Hkeep Hmark]]] _ IH]; intros Hall.
  - constructor.
  - inversion Hall as [|? ? [Hlo [Hhi Hb]] Hrest]; subst.
    constructor; [|auto]. rewrite Hx. split; [assumption|]. split; [assumption|].
    intros Hp'. assert (Hbp : behind p = true).
    { destruct (passed p) eqn:Ep; auto. }
    unfold behind in *. rewrite Hx. exact Hbp.
Qed.

(** X18. In every world of a session each pipe is at least partly on
    screen and not right of the canvas ([-PIPE_WIDTH < x <= CANVAS_WIDTH]),
    a pipe marked passed has its trailing edge left of the middle of the
    bird, the score and high score are not negative, and a game that is
    over was being played. *)
Theorem session_pipes_and_scores w :
  reachable w ->
  Forall (fun p => - PIPE_WIDTH < x p /\ x p <= CANVAS_WIDTH /\
                   (passed p = true -> behind p = true))
         (pipes (state w)) /\
  (0 <= score (state w))%Z /\ (0 <= highScore (state w))%Z /\
  (isGameOver (state w) = true -> isPlaying (state w) = true).
Proof.
  intros [events <-].
  apply (run_invariant
           (fun w => Forall (fun p => - PIPE_WIDTH < x p /\ x p <= CANVAS_WIDTH /\
                                      (passed p = true -> behind p = true))
                            (pipes (state w)) /\
                     (0 <= score (state w))%Z /\ (0 <= highScore (state w))%Z /\
                     (isGameOver (state w) = true -> isPlaying (state w) = true))).
  - intros e w [Hpipes [Hs [Hh Hov]]].
    assert (Hstart : forall now,
               Forall (fun p => - PIPE_WIDTH < x p /\ x p <= CANVAS_WIDTH /\
                                (passed p = true -> behind p = true))
                      (pipes (state (startGame now w))) /\
               (0 <= score (state (startGame now w)))%Z /\
               (0 <= highScore (state (startGame now w)))%Z /\
               (isGameOver (state (startGame now w)) = true ->
                isPlaying (state (startGame now w)) = true)).
    { intros now. simpl. repeat split; auto; try lia. }
    destruct e; cbn [step].
    + destruct (isPlaying (state w)) eqn:Hp;
        [|change (update (state w) now random w) with (step (Frame now random) w); rewrite frame_idle by auto; repeat split; auto; intros Ho; rewrite Hp; auto].
      destruct (isGameOver (state w)) eqn:Hg;
        [change (update (state w) now random w) with (step (Frame now random) w); rewrite frame_idle by auto; repeat split; auto; intros Ho; rewrite Hp; auto|].
      change (update (state w) now random w) with (step (Frame now random) w).
      pose proof (frame_result now random w Hp Hg) as H. cbv zeta in H.
      destruct H as [_ [_ [Hhi [_ [Hle [Hall [Hp' _]]]]]]].
      split; [|split; [lia|split; [|auto]]].
      * eapply scanned_kept; [exact Hall|]. apply framePipes_kept. assumption.
      * rewrite Hhi. destruct (isGameOver (state (step (Frame now random) w))); lia.
    + unfold handleClick.
      destruct (isGameOver (state w)) eqn:Hg; [apply Hstart|].
      destruct (isPlaying (state w)) eqn:Hp; cbn [negb]; [|apply (Hstart now)].
      simpl. rewrite Hg, Hp. repeat split; auto.
    + unfold handleKeyDown.
      destruct (String.eqb code "Space"); [apply (Hstart now)|].
      repeat split; auto.
    + apply Hstart.
    + simpl. repeat split; auto.
  - simpl. repeat split; auto; try lia; try discriminate.
Qed.

Lemma session_pipes_witness : (0 <= score (state afterFirstFrame))%Z.
Proof.
  apply (session_pipes_and_scores afterFirstFrame).
  exists [Click 0; Frame 16 (1 # 2)]. reflexivity.
Defined.

(** X19. The high score of Flappy Bird never goes down, whatever the
    events (frames, clicks, key presses, restarts, difficulty picks). *)
Theorem flappy_highScore_never_decreases events w :
  (highScore (state w) <= highScore (state (run events w)))%Z.
Proof.
  revert w. induction events as [|e events IH]; intros w; simpl; [lia|].
  specialize (IH (step e w)).
  assert (Hstep : (highScore (state w) <= highScore (state (step e w)))%Z).
  { destruct e; cbn [step].
    - unfold update. destruct (negb (isPlaying (state w)) || isGameOver (state w));
        [lia|].
      rewrite updateWith_parts. cbv zeta.
      destruct (outOfBounds _); [simpl; lia|].
      destruct (scanPipes _ _ _ _) as [[scanned newScore] hit].
      destruct hit; simpl; lia.
    - unfold handleClick. destruct (isGameOver (state w)); [simpl; lia|].
      destruct (negb (isPlaying (state w))); simpl; lia.
    - unfold handleKeyDown. destruct (String.eqb code "Space"); simpl; lia.
    - simpl. lia.
    - simpl. lia. }
  lia.
Qed.

End FlappyMore.
